(** * ai-cli: the round-table chat engine and its configuration

    A shallow embedding of
      - [ai-cli/core/messages.py]   ([ChatMessage]),
      - [ai-cli/config/models.py] and [ai_cli/config/models.py]
        ([ModelConfig], [RoundTableConfig], [AIConfig.get_model_config]),
      - [ai-cli/core/chat.py]       ([ChatEngine]),
    together with the properties the specification states about them.

    The engine is written in a small monad of traces and exceptions: a
    method leaves the list of its console outputs, model calls and task
    cancellations, and returns or raises.  The provider client, whose
    factory is outside these sources, is a parameter of the engine. *)

From Stdlib Require Import ZArith NArith List String Ascii Lia SpecFloat.
From stdpp Require Import gmap list.

Local Open Scope Z_scope.

(** ** Python values used by the engine *)

Module Py.

(** A Python [str] is a sequence of Unicode code points. *)
Definition char : Type := N.
Definition str : Type := list char.

(** ASCII literals of the source text. *)
Definition lit (s : string) : str :=
  map N_of_ascii (list_ascii_of_string s).

(** [ch.isspace()]: the code points CPython's [_PyUnicode_IsWhitespace]
    accepts. *)
Definition isspace (c : char) : bool :=
  ((9 <=? c) && (c <=? 13))%N || ((28 <=? c) && (c <=? 32))%N
  || (c =? 133)%N || (c =? 160)%N || (c =? 5760)%N
  || ((8192 <=? c) && (c <=? 8202))%N
  || (c =? 8232)%N || (c =? 8233)%N || (c =? 8239)%N
  || (c =? 8287)%N || (c =? 12288)%N.

Fixpoint lstrip (s : str) : str :=
  match s with
  | c :: s' => if isspace c then lstrip s' else s
  | [] => []
  end.

Definition rstrip (s : str) : str := rev (lstrip (rev s)).

(** [s.strip()] with no argument. *)
Definition strip (s : str) : str := rstrip (lstrip s).

(** [response = ""; for chunk in ...: response += chunk]. *)
Definition join (chunks : list str) : str :=
  fold_left (fun response chunk => response ++ chunk) chunks [].

(** The exception classes the engine tells apart: [asyncio.TimeoutError],
    [ValueError], and any other subclass of [Exception]. *)
Inductive exc_class := TimeoutError | ValueError | OtherException.

(** A raised exception; [exc_str e] is [str(e)]. *)
Record exc := Raise { exc_type : exc_class; exc_str : str }.

(** An insertion-ordered [dict] from [str] to [str]: assigning to a key
    that is present keeps its position, a new key goes last. *)
Definition odict : Type := list (str * str).

Fixpoint setitem (d : odict) (k v : str) : odict :=
  match d with
  | [] => [(k, v)]
  | (k', v') :: d' =>
      if decide (k = k') then (k, v) :: d' else (k', v') :: setitem d' k v
  end.

Fixpoint getitem (d : odict) (k : str) : option str :=
  match d with
  | [] => None
  | (k', v') :: d' => if decide (k = k') then Some v' else getitem d' k
  end.

Definition keys (d : odict) : list str := map fst d.

(** [for k, v in es: d[k] = v] *)
Definition setitems (es d : odict) : odict :=
  fold_left (fun d '(k, v) => setitem d k v) es d.

(** [range(n)] *)
Definition range (n : Z) : list nat := seq 0 (Z.to_nat n).

End Py.

Import Py.

(** ** [core/messages.py] *)

Record ChatMessage := mkChatMessage {
  role : str;
  content : str;
  metadata : gmap str str
}.

(** [ChatMessage(role, content, metadata=None)]: [metadata or {}]. *)
Definition ChatMessage_init (role content : str)
    (metadata : option (gmap str str)) : ChatMessage :=
  mkChatMessage role content (default ∅ metadata).

(** ** [config/models.py] *)

Module Config.

Inductive Provider := openai | anthropic | ollama | gemini.

(** [temperature] is a Python [float], an IEEE 754 double. *)
Record ModelConfig := {
  provider : Provider;
  api_key : option str;
  endpoint : option str;
  model : str;
  max_tokens : Z;
  temperature : spec_float;
  context_window : Z
}.

Record RoundTableConfig := {
  enabled_models : list str;
  discussion_rounds : Z;
  critique_mode : bool;
  parallel_responses : bool;
  timeout_seconds : Z
}.

Inductive Theme := dark | light.
Inductive Format := markdown | plain.

Record UIConfig := {
  theme : Theme;
  streaming : bool;
  format : Format;
  show_model_icons : bool;
  show_timestamps : bool
}.

Record AIConfig := {
  default_model : str;
  models : gmap str ModelConfig;
  roundtable : RoundTableConfig;
  ui : UIConfig
}.

(** A method of [AIConfig]: it reads and may change [self], and either
    returns or raises. *)
Definition method (A : Type) : Type := AIConfig -> (exc + A) * AIConfig.

Definition not_found (model_name : str) : exc :=
  Raise ValueError
    (lit "Model '" ++ model_name ++ lit "' not found in configuration").

(** [AIConfig.get_model_config] of [ai_cli/config/models.py]. *)
Definition get_model_config (model_name : str) : method ModelConfig :=
  fun self =>
    match models self !! model_name with
    | None => (inl (not_found model_name), self)
    | Some model_data => (inr model_data, self)
    end.

(** The older [ai-cli/config/models.py] has one more step: an entry that
    is still a plain [dict] is turned into a [ModelConfig] first.  The
    field is declared [Dict[str, ModelConfig]] and validated on
    construction, so every entry already is a [ModelConfig] and the
    [isinstance(model_data, dict)] test is false. *)
Definition isinstance_dict (model_data : ModelConfig) : bool := false.

Definition get_model_config_legacy (model_name : str) : method ModelConfig :=
  fun self =>
    match models self !! model_name with
    | None => (inl (not_found model_name), self)
    | Some model_data =>
        if isinstance_dict model_data then (inr model_data, self)
        else (inr model_data, self)
    end.

End Config.

Import Config.

(** ** [core/chat.py]: effects *)

(** What the engine shows on the console (the rich markup is left out). *)
Inductive output :=
| NeedTwoModels
| Headline
| ModelsLine (models : list str)
| ModeLine (parallel : bool)
| Topic (prompt : str)
| RoundTitle (n : Z)
| Separator
| RoundTableError (msg : str)
| ResponsePanel (model_name : str) (p : Provider) (response : str)
| ResponseColumns (responses : odict).

(** What an execution does, in order: console output, a call of
    [_get_model_response] for a model on a list of messages, the
    cancellation of a model's task by [asyncio.wait_for]. *)
Inductive event :=
| Print (o : output)
| Call (model_name : str) (messages : list ChatMessage)
| Cancel (model_name : str).

(** A computation that leaves a trace and returns or raises. *)
Definition M (A : Type) : Type := list event * (exc + A).

Definition ret {A} (a : A) : M A := ([], inr a).
Definition raise {A} (e : exc) : M A := ([], inl e).
Definition emit (ev : event) : M unit := ([ev], inr tt).
Definition console_print (o : output) : M unit := emit (Print o).

Definition bind {A B} (m : M A) (f : A -> M B) : M B :=
  match m with
  | (t, inl e) => (t, inl e)
  | (t, inr a) => let '(t', r) := f a in (t ++ t', r)
  end.

(** [try: m  except Exception as e: ...] seen from the inside: the outcome
    of [m] as a value. *)
Definition attempt {A} (m : M A) : M (exc + A) := (fst m, inr (snd m)).

Notation "x <- m ;; k" := (bind m (fun x => k))
  (at level 100, m at next level, right associativity).
Notation "m ;;; k" := (bind m (fun _ => k))
  (at level 100, right associativity).

Definition trace {A} (m : M A) : list event := fst m.
Definition outcome {A} (m : M A) : exc + A := snd m.

(** The models that were asked for a response, each with the messages it
    was given. *)
Definition calls (t : list event) : list (str * list ChatMessage) :=
  omap (fun ev => match ev with Call m ms => Some (m, ms) | _ => None end) t.

(** The models whose task was cancelled. *)
Definition cancelled (t : list event) : list str :=
  omap (fun ev => match ev with Cancel m => Some m | _ => None end) t.

(** ** The provider client

    [ProviderFactory.get_provider(model_name).chat_stream(messages)] is the
    engine's only view of a model.  One invocation streams [fragments] and
    then either ends or raises [failure] (an exception of [get_provider]
    has no fragments); it settles [latency] seconds after it was started. *)
Record invocation := {
  latency : Z;
  fragments : list str;
  failure : option exc
}.

Definition provider_client : Type := str -> list ChatMessage -> invocation.

(** ** [core/chat.py]: the engine *)

Section ChatEngine.

Variable config : AIConfig.
Variable client : provider_client.

(** [self.config.get_model_config(model_name)] inside the engine. *)
Definition config_get_model_config (model_name : str) : M ModelConfig :=
  ([], fst (get_model_config model_name config)).

Definition _get_model_response (model_name : str)
    (messages : list ChatMessage) : M str :=
  emit (Call model_name messages) ;;;
  let stream := client model_name messages in
  let response := join (fragments stream) in
  match failure stream with
  | Some e => raise e
  | None => ret (strip response)
  end.

Definition _display_single_response (model_name response : str) : M unit :=
  model_config <- config_get_model_config model_name ;;
  console_print (ResponsePanel model_name (provider model_config) response).

Definition _display_parallel_responses (responses : odict) : M unit :=
  console_print (ResponseColumns responses).

Definition assistant_turn (model response : str) : ChatMessage :=
  ChatMessage_init (lit "assistant") response
    (Some {[ lit "model" := model ]}).

(** [for k, v in responses.items(): history.append(ChatMessage(...))] *)
Definition append_responses (history : list ChatMessage)
    (responses : odict) : list ChatMessage :=
  fold_left (fun h '(model, response) => h ++ [assistant_turn model response])
    responses history.

(** *** Sequential round *)

Definition error_msg (e : exc) : str :=
  [10060%N] ++ lit " Error: " ++ exc_str e.

(** The context of the [i]-th model of a round: in critique mode, from
    the second model on, a copy of the history extended by the responses
    of the round so far; the history itself otherwise. *)
Definition current_history (i : nat)
    (conversation_history : list ChatMessage) (responses : odict)
    : list ChatMessage :=
  if (0 <? i)%nat && critique_mode (roundtable config)
  then append_responses conversation_history responses
  else conversation_history.

(** The body of [for i, model in enumerate(models)]; [responses] is
    the dict as the iteration finds it, the result the dict as it leaves
    it. *)
Definition sequential_body (i : nat) (model : str)
    (conversation_history : list ChatMessage) (responses : odict)
    : M odict :=
  let current_history :=
    current_history i conversation_history responses in
  let handler (responses : odict) (e : exc) : M odict :=
    let responses := setitem responses model (error_msg e) in
    _display_single_response model (error_msg e) ;;;
    ret responses in
  got <- attempt (_get_model_response model current_history) ;;
  match got with
  | inr response =>
      let responses := setitem responses model response in
      shown <- attempt (_display_single_response model response) ;;
      match shown with
      | inr _ => ret responses
      | inl e => handler responses e
      end
  | inl e => handler responses e
  end.

Fixpoint sequential_loop (i : nat) (models : list str)
    (conversation_history : list ChatMessage) (responses : odict)
    : M odict :=
  match models with
  | [] => ret responses
  | model :: rest =>
      responses <- sequential_body i model conversation_history responses ;;
      sequential_loop (S i) rest conversation_history responses
  end.

Definition _run_sequential_round (conversation_history : list ChatMessage)
    (models : list str) : M odict :=
  sequential_loop 0 models conversation_history [].

(** *** Parallel round

    Time is counted in whole seconds from the start of the round.  The
    tasks are created together and run while the engine awaits them, so
    every provider call starts at 0 and settles at its [latency]; the
    engine itself takes no time between two awaits.  [timeout_seconds] is
    meant to be positive (its default is 30).  The transient progress
    spinner shown during the awaits is left out. *)

(** A task made by [asyncio.create_task]: it runs beside the engine from
    the start of the round, and is done [done_at] seconds later with
    [result]. *)
Record task := { done_at : Z; result : exc + str }.

Definition create_task (model : str)
    (conversation_history : list ChatMessage) : M task :=
  let coro := _get_model_response model conversation_history in
  (trace coro,
   inr {| done_at := latency (client model conversation_history);
          result := outcome coro |}).

(** [await asyncio.wait_for(task, timeout)] begun [now] seconds into the
    round: the task's result when it is done within [timeout] seconds of
    [now] (a task done exactly at the deadline counts as done); otherwise
    the task is cancelled and [TimeoutError] raised.  Returns the time at
    which the await ends. *)
Definition wait_for (model : str) (t : task) (timeout now : Z)
    : Z * M str :=
  if done_at t <=? now + timeout
  then (Z.max now (done_at t), ([], result t))
  else (now + timeout,
        emit (Cancel model) ;;; raise (Raise TimeoutError [])).

Definition timed_out_msg (model : str) : str :=
  [9888%N; 65039%N] ++ lit " " ++ model ++ lit " timed out".

Definition model_error_msg (model : str) (e : exc) : str :=
  [10060%N] ++ lit " " ++ model ++ lit " error: " ++ exc_str e.

Fixpoint create_tasks (models : list str)
    (conversation_history : list ChatMessage) : M (list (str * task)) :=
  match models with
  | [] => ret []
  | model :: rest =>
      t <- create_task model conversation_history ;;
      tasks <- create_tasks rest conversation_history ;;
      ret ((model, t) :: tasks)
  end.

(** The body of [for model, task in tasks], begun [now] seconds into
    the round: the time at which it ends, and the dict as it leaves it. *)
Definition await_body (model : str) (t : task) (now : Z)
    (responses : odict) : Z * M odict :=
  let '(now', awaited) :=
    wait_for model t (timeout_seconds (roundtable config)) now in
  (now',
   got <- attempt awaited ;;
   match got with
   | inr response => ret (setitem responses model response)
   | inl e =>
       match exc_type e with
       | TimeoutError => ret (setitem responses model (timed_out_msg model))
       | _ => ret (setitem responses model (model_error_msg model e))
       end
   end).

Fixpoint await_tasks (tasks : list (str * task)) (now : Z)
    (responses : odict) : M odict :=
  match tasks with
  | [] => ret responses
  | (model, t) :: rest =>
      let '(now', body) := await_body model t now responses in
      responses <- body ;;
      await_tasks rest now' responses
  end.

Definition _run_parallel_round (conversation_history : list ChatMessage)
    (models : list str) : M odict :=
  tasks <- create_tasks models conversation_history ;;
  responses <- await_tasks tasks 0 [] ;;
  _display_parallel_responses responses ;;;
  ret responses.

(** *** The round table *)

Fixpoint rounds_loop (round_nums : list nat) (parallel : bool)
    (enabled_models : list str) (conversation_history : list ChatMessage)
    : M (list ChatMessage) :=
  match round_nums with
  | [] => ret conversation_history
  | round_num :: later =>
      console_print (RoundTitle (Z.of_nat round_num + 1)) ;;;
      responses <-
        (if parallel
         then _run_parallel_round conversation_history enabled_models
         else _run_sequential_round conversation_history enabled_models) ;;
      let conversation_history :=
        append_responses conversation_history responses in
      (if Z.of_nat round_num <? discussion_rounds (roundtable config) - 1
       then console_print Separator else ret tt) ;;;
      rounds_loop later parallel enabled_models conversation_history
  end.

(** [roundtable_chat] returns [None] in Python; the embedding returns the
    local [conversation_history] as it is when the method ends, and
    [None] when the method ends before that list is made. *)
Definition roundtable_chat (prompt : str) (parallel : bool)
    : M (option (list ChatMessage)) :=
  let enabled_models := enabled_models (roundtable config) in
  if (length enabled_models <? 2)%nat then
    console_print NeedTwoModels ;;;
    ret None
  else
    console_print Headline ;;;
    console_print (ModelsLine enabled_models) ;;;
    console_print (ModeLine parallel) ;;;
    console_print (Topic prompt) ;;;
    let conversation_history :=
      [ChatMessage_init (lit "user") prompt None] in
    ran <- attempt
      (rounds_loop (range (discussion_rounds (roundtable config)))
         parallel enabled_models conversation_history) ;;
    match ran with
    | inr conversation_history => ret (Some conversation_history)
    | inl e =>
        console_print (RoundTableError (exc_str e)) ;;;
        raise e
    end.

(** *** Summaries of the two loop bodies, used to state their effect *)

(** The assistant turns that stand for the entries of a dict. *)
Definition turns (responses : odict) : list ChatMessage :=
  map (fun '(m, r) => assistant_turn m r) responses.

(** The context of the [i]-th model of a sequential round whose history
    is [h], in terms of the entries [responses] of the round's result. *)
Definition context_of (h : list ChatMessage) (responses : odict)
    (i : nat) : list ChatMessage :=
  if (0 <? i)%nat && critique_mode (roundtable config)
  then h ++ turns (take i responses) else h.

(** What a sequential iteration that does not abort stores for a model
    called on [messages]. *)
Definition sequential_entry (model : str) (messages : list ChatMessage)
    : str :=
  match failure (client model messages) with
  | None => strip (join (fragments (client model messages)))
  | Some e => error_msg e
  end.

(** Whether an await begun at [now] runs into its timeout. *)
Definition timed_out (t : task) (now : Z) : bool :=
  negb (done_at t <=? now + timeout_seconds (roundtable config)).

(** What the await loop stores for a task awaited from [now]. *)
Definition parallel_entry (model : str) (t : task) (now : Z) : str :=
  if timed_out t now then timed_out_msg model
  else match result t with
       | inr response => response
       | inl e =>
           match exc_type e with
           | TimeoutError => timed_out_msg model
           | _ => model_error_msg model e
           end
       end.

(** The tasks of a round, each with the time at which its await begins:
    the first at [now], the next when the one before it has ended. *)
Fixpoint awaited (tasks : list (str * task)) (now : Z)
    : list (str * task * Z) :=
  match tasks with
  | [] => []
  | (model, t) :: rest =>
      (model, t, now) ::
      awaited rest
        (fst (wait_for model t (timeout_seconds (roundtable config)) now))
  end.

(** The cancellation an await leaves in the trace, and the entry it
    leaves in the dict. *)
Definition late (w : str * task * Z) : list event :=
  if timed_out w.1.2 w.2 then [Cancel w.1.1] else [].

Definition entry (w : str * task * Z) : str * str :=
  (w.1.1, parallel_entry w.1.1 w.1.2 w.2).

(** The task [create_task] makes for a model. *)
Definition task_of (model : str) (conversation_history : list ChatMessage)
    : task :=
  {| done_at := latency (client model conversation_history);
     result := outcome (_get_model_response model conversation_history) |}.

End ChatEngine.

(** The model an assistant turn is tagged with. *)
Definition speaker (msg : ChatMessage) : option str :=
  metadata msg !! lit "model".

(** ** The role resolver

    [cli.py] imports [RoundtableRole] from [core/roles.py] and sets
    [use_role_based_prompting], [role_rotation] and role assignments through
    the configuration manager; the module that picks a model's role for a
    round is not among the sources at hand. *)

Module Roles.

(** Modelled from the spec: the [DiscussionRole] enum, "{generator,
    critic, refiner, evaluator}". *)
Inductive DiscussionRole := generator | critic | refiner | evaluator.

(** Modelled from the spec: the "fixed canonical order {generator, critic,
    refiner, evaluator}" of the full enum. *)
Definition canonical_order : list DiscussionRole :=
  [generator; critic; refiner; evaluator].

(** Modelled from the spec: the role fields of [RoundTableSettings];
    [role_assignments] maps a model to its assigned roles, in the order
    they were assigned. *)
Record RoleSettings := {
  use_role_based_prompting : bool;
  role_rotation : bool;
  role_assignments : gmap str (list DiscussionRole)
}.

(** Modelled from the spec: "a model with no assignment is eligible for
    every role". *)
Definition assigned_roles (settings : RoleSettings) (model : str)
    : list DiscussionRole :=
  match role_assignments settings !! model with
  | None | Some [] => canonical_order
  | Some roles => roles
  end.

(** Modelled from the spec: the resolver [active_role_for(model,
    round_index, settings)] of section 4.2, which is missing from the
    sources.  Without role-based prompting there is no role; without
    rotation the model plays its first assigned role; with rotation the
    role is picked by [round_index mod |assigned roles|].  (The spec does
    not say what a model without assignments plays when rotation is off;
    here it is treated like a model assigned every role.) *)
Definition active_role_for (model : str) (round_index : nat)
    (settings : RoleSettings) : option DiscussionRole :=
  if negb (use_role_based_prompting settings) then None
  else
    let roles := assigned_roles settings model in
    if role_rotation settings
    then roles !! (round_index mod length roles)%nat
    else head roles.

End Roles.

(** ** Concrete configurations and provider stubs *)

Module Examples.

Import Roles.

Definition model_a : str := lit "openai/gpt-4".
Definition model_b : str := lit "anthropic/claude-3-sonnet".
Definition model_c : str := lit "ollama/llama2".

(** The double nearest to 0.7: [0x16666666666666 * 2^-53]. *)
Definition default_temperature : spec_float :=
  S754_finite false 6305039478318694 (-53).

(** A [ModelConfig] with the defaults of the class. *)
Definition default_model_config (p : Provider) (name : string)
    : ModelConfig :=
  {| provider := p; api_key := None; endpoint := None; model := lit name;
     max_tokens := 4000; temperature := default_temperature;
     context_window := 4000 |}.

Definition default_ui : UIConfig :=
  {| theme := dark; streaming := true; format := markdown;
     show_model_icons := true; show_timestamps := false |}.

(** The three default models of [ensure_default_models]. *)
Definition default_models : gmap str ModelConfig :=
  <[model_a := default_model_config openai "gpt-4"]>
    (<[model_b := default_model_config anthropic "claude-3-sonnet-20240229"]>
       (<[model_c := default_model_config ollama "llama2"]> ∅)).

(** Three enabled models, two rounds, a timeout of 30 seconds. *)
Definition table (critique : bool) : AIConfig :=
  {| default_model := model_a;
     models := default_models;
     roundtable :=
       {| enabled_models := [model_a; model_b; model_c];
          discussion_rounds := 2;
          critique_mode := critique;
          parallel_responses := false;
          timeout_seconds := 30 |};
     ui := default_ui |}.

(** One enabled model only. *)
Definition solo : AIConfig :=
  {| default_model := model_a;
     models := default_models;
     roundtable :=
       {| enabled_models := [model_a];
          discussion_rounds := 2;
          critique_mode := true;
          parallel_responses := false;
          timeout_seconds := 30 |};
     ui := default_ui |}.

Definition hello : str := lit "hello".
Definition question : list ChatMessage :=
  [ChatMessage_init (lit "user") hello None].

(** A stub that answers at once, in two fragments, with blanks around
    the text. *)
Definition padded : provider_client :=
  fun m ms =>
    {| latency := 1;
       fragments := [lit " re"; lit ": " ++ m ++ [10%N]];
       failure := None |}.

(** A stub whose first model needs 25 seconds, the second 50 and the
    third 100. *)
Definition staggered : provider_client :=
  fun m ms =>
    {| latency := if decide (m = model_a) then 25
                  else if decide (m = model_b) then 50 else 100;
       fragments := [lit "pong"];
       failure := None |}.

(** A stub whose second model fails and whose third never settles in
    time. *)
Definition flaky : provider_client :=
  fun m ms =>
    {| latency := if decide (m = model_c) then 1000 else 2;
       fragments := [lit "pong"];
       failure := if decide (m = model_b)
                  then Some (Raise OtherException (lit "rate limit"))
                  else None |}.

(** Like [padded], but slower. *)
Definition padded_slow : provider_client :=
  fun m ms =>
    {| latency := 20;
       fragments := [lit " re"; lit ": " ++ m ++ [10%N]];
       failure := None |}.

(** Like [padded], but settling after the timeout of [table]. *)
Definition padded_late : provider_client :=
  fun m ms =>
    {| latency := 100;
       fragments := [lit " re"; lit ": " ++ m ++ [10%N]];
       failure := None |}.

Definition rotating : RoleSettings :=
  {| use_role_based_prompting := true;
     role_rotation := true;
     role_assignments := {[ model_a := [generator; critic] ]} |}.

End Examples.

(** ** More of Python's [str] and [list] *)

Module PyMore.

(** [bool(s)]: a string is true unless it is empty. *)
Definition truthy (s : str) : bool :=
  match s with [] => false | _ => true end.

(** [s.startswith(prefix)] *)
Definition startswith (s prefix : str) : bool :=
  bool_decide (take (length prefix) s = prefix).

(** [sub in s] *)
Fixpoint contains (sub s : str) : bool :=
  startswith s sub
  || match s with
     | [] => false
     | _ :: s' => contains sub s'
     end.

(** [l.remove(x)]: the first [x] goes; [ValueError] when there is none. *)
Fixpoint list_remove (x : str) (l : list str) : exc + list str :=
  match l with
  | [] => inl (Raise ValueError (lit "list.remove(x): x not in list"))
  | y :: l' =>
      if decide (x = y) then inr l'
      else match list_remove x l' with
           | inl e => inl e
           | inr l'' => inr (y :: l'')
           end
  end.

End PyMore.

Import PyMore.

(** ** [config/manager.py] *)

Module Manager.

(** The value of the [Literal] a provider is written as. *)
Definition provider_str (p : Provider) : str :=
  match p with
  | openai => lit "openai"
  | anthropic => lit "anthropic"
  | ollama => lit "ollama"
  | gemini => lit "gemini"
  end.

(** The dict [_config_to_dict] makes of a [ModelConfig]; the keys
    ["api_key"] and ["endpoint"] may be missing. *)
Record model_dict := {
  d_provider : Provider;
  d_model : str;
  d_max_tokens : Z;
  d_temperature : spec_float;
  d_context_window : Z;
  d_api_key : option str;
  d_endpoint : option str
}.

(** The dict [_config_to_dict] makes of an [AIConfig]. *)
Record config_dict := {
  d_default_model : str;
  d_models : gmap str model_dict;
  d_roundtable : RoundTableConfig;
  d_ui : UIConfig
}.

(** Whether [_config_to_dict] takes a key for a resolved secret. *)
Definition looks_resolved (key : str) : bool :=
  startswith key (lit "sk-") || startswith key (lit "AIzaSy")
  || (50 <? length key)%nat.

(** The ["api_key"] entry written for the model [name], if any. *)
Definition api_key_entry (name : str) (model_config : ModelConfig)
    : option str :=
  match api_key model_config with
  | Some key =>
      if truthy key then
        if looks_resolved key then
          if bool_decide (name = lit "openai/gpt-4")
             || contains (lit "openai") (provider_str (provider model_config))
          then Some (lit "env:OPENAI_API_KEY")
          else if bool_decide (name = lit "anthropic/claude-3-sonnet")
                  || contains (lit "anthropic")
                       (provider_str (provider model_config))
          then Some (lit "env:ANTHROPIC_API_KEY")
          else if contains (lit "gemini")
                    (provider_str (provider model_config))
          then Some (lit "env:GOOGLE_API_KEY")
          else None
        else Some key
      else None
  | None => None
  end.

(** The ["endpoint"] entry, written when the endpoint is not empty. *)
Definition endpoint_entry (model_config : ModelConfig) : option str :=
  match endpoint model_config with
  | Some url => if truthy url then Some url else None
  | None => None
  end.

(** The body of [for name, model_config in config.models.items()]; every
    entry of [models] is a [ModelConfig]. *)
Definition model_to_dict (name : str) (model_config : ModelConfig)
    : model_dict :=
  {| d_provider := provider model_config;
     d_model := model model_config;
     d_max_tokens := max_tokens model_config;
     d_temperature := temperature model_config;
     d_context_window := context_window model_config;
     d_api_key := api_key_entry name model_config;
     d_endpoint := endpoint_entry model_config |}.

Definition _config_to_dict (config : AIConfig) : config_dict :=
  {| d_default_model := default_model config;
     d_models := map_imap (fun name mc => Some (model_to_dict name mc))
                   (models config);
     d_roundtable := roundtable config;
     d_ui := ui config |}.

(** What a manager does to the world: it writes a dict to the config
    file, or prints the two lines that warn of a file it could not load. *)
Inductive effect :=
| Written (d : config_dict)
| Warned (e : exc).

(** The config file as the manager finds it at its first load: missing,
    there but not loadable ([toml.load] or the [AIConfig] constructor
    raises), or loaded into a configuration. *)
Inductive config_file :=
| Absent
| Unreadable (e : exc)
| Holds (config : AIConfig).

(** The state of a [ConfigManager]: the cached [_config]. *)
Record ConfigManager := { _config : option AIConfig }.

(** A method of the manager: it may change the manager, leaves its
    effects in order, and returns or raises. *)
Definition Op (A : Type) : Type :=
  ConfigManager -> list effect * (exc + A) * ConfigManager.

Definition op_ret {A} (a : A) : Op A := fun self => ([], inr a, self).
Definition op_raise {A} (e : exc) : Op A := fun self => ([], inl e, self).
Definition op_bind {A B} (m : Op A) (f : A -> Op B) : Op B :=
  fun self =>
    match m self with
    | (w, inl e, self') => (w, inl e, self')
    | (w, inr a, self') =>
        let '(w', r, self'') := f a self' in (w ++ w', r, self'')
    end.
Definition op_effect (ef : effect) : Op unit :=
  fun self => ([ef], inr tt, self).
Definition get_cached : Op (option AIConfig) :=
  fun self => ([], inr (_config self), self).
Definition set_cached (config : AIConfig) : Op unit :=
  fun _ => ([], inr tt, {| _config := Some config |}).

Notation "x <~ m ;; k" := (op_bind m (fun x => k))
  (at level 100, m at next level, right associativity).
Notation "m ;;~ k" := (op_bind m (fun _ => k))
  (at level 100, right associativity).

Section Methods.

(** The file at [~/.ai-cli/config.toml] and the configuration [AIConfig()]
    builds from the defaults and the environment. *)
Variable file : config_file.
Variable fresh : AIConfig.

(** [save_config(config=None)] *)
Definition save_config (config : option AIConfig) : Op unit :=
  cached <~ get_cached ;;
  let config := match config with None => cached | Some _ => config end in
  match config with
  | None => op_raise (Raise ValueError (lit "No configuration to save"))
  | Some config => op_effect (Written (_config_to_dict config))
  end.

Definition load_config : Op AIConfig :=
  cached <~ get_cached ;;
  match cached with
  | Some config => op_ret config
  | None =>
      match file with
      | Holds config => set_cached config
      | Unreadable e => op_effect (Warned e) ;;~ set_cached fresh
      | Absent => set_cached fresh ;;~ save_config None
      end ;;~
      cached <~ get_cached ;;
      match cached with
      | Some config => op_ret config
      | None => op_ret fresh
      end
  end.

(** [config] is the cached object itself: what the methods below assign
    to it, they assign to [self._config]. *)
Definition set_default_model (model_name : str) : Op unit :=
  config <~ load_config ;;
  if bool_decide (model_name ∈ dom (models config)) then
    let config :=
      {| default_model := model_name; models := models config;
         roundtable := roundtable config; ui := ui config |} in
    set_cached config ;;~
    save_config (Some config)
  else op_raise (not_found model_name).

Definition with_enabled_models (config : AIConfig) (enabled : list str)
    : AIConfig :=
  {| default_model := default_model config;
     models := models config;
     roundtable :=
       {| enabled_models := enabled;
          discussion_rounds := discussion_rounds (roundtable config);
          critique_mode := critique_mode (roundtable config);
          parallel_responses := parallel_responses (roundtable config);
          timeout_seconds := timeout_seconds (roundtable config) |};
     ui := ui config |}.

Definition add_roundtable_model (model_name : str) : Op unit :=
  config <~ load_config ;;
  if bool_decide (model_name ∈ dom (models config)) then
    if bool_decide (model_name ∈ enabled_models (roundtable config))
    then op_ret tt
    else
      let config :=
        with_enabled_models config
          (enabled_models (roundtable config) ++ [model_name]) in
      set_cached config ;;~
      save_config (Some config)
  else op_raise (not_found model_name).

Definition remove_roundtable_model (model_name : str) : Op unit :=
  config <~ load_config ;;
  if bool_decide (model_name ∈ enabled_models (roundtable config)) then
    match list_remove model_name (enabled_models (roundtable config)) with
    | inl e => op_raise e
    | inr enabled =>
        let config := with_enabled_models config enabled in
        set_cached config ;;~
        save_config (Some config)
    end
  else op_ret tt.

(** [{name: config.get_model_config(name) for name in config.models.keys()}] *)
Fixpoint collect_models (config : AIConfig) (names : list str)
    : exc + gmap str ModelConfig :=
  match names with
  | [] => inr ∅
  | name :: rest =>
      match fst (get_model_config name config) with
      | inl e => inl e
      | inr model_config =>
          match collect_models config rest with
          | inl e => inl e
          | inr listed => inr (<[name := model_config]> listed)
          end
      end
  end.

Definition list_models : Op (gmap str ModelConfig) :=
  config <~ load_config ;;
  match collect_models config (map fst (map_to_list (models config))) with
  | inl e => op_raise e
  | inr listed => op_ret listed
  end.

(** The commands of [ai config] that go through these methods. *)
Inductive command :=
| SetDefault (model_name : str)
| AddRoundtable (model_name : str)
| RemoveRoundtable (model_name : str)
| ListModels.

(** What a method writes and how it leaves the manager, whether it
    returns or raises. *)
Definition aftermath {A} (m : Op A) (self : ConfigManager)
    : list effect * ConfigManager :=
  (fst (fst (m self)), snd (m self)).

Definition run_command (c : command) : ConfigManager ->
    list effect * ConfigManager :=
  match c with
  | SetDefault n => aftermath (set_default_model n)
  | AddRoundtable n => aftermath (add_roundtable_model n)
  | RemoveRoundtable n => aftermath (remove_roundtable_model n)
  | ListModels => aftermath list_models
  end.

(** *** What the first [load_config] of a manager comes to *)

(** The configuration a manager works on: the file's, or the defaults
    when the file is missing or cannot be loaded. *)
Definition initial_config : AIConfig :=
  match file with
  | Holds config => config
  | Absent | Unreadable _ => fresh
  end.

(** What the first load does to the world. *)
Definition load_effects : list effect :=
  match file with
  | Holds _ => []
  | Unreadable e => [Warned e]
  | Absent => [Written (_config_to_dict fresh)]
  end.

End Methods.

(** A configuration whose enabled models are pairwise distinct and
    configured. *)
Definition consistent (config : AIConfig) : Prop :=
  NoDup (enabled_models (roundtable config))
  /\ Forall (fun m => is_Some (models config !! m))
       (enabled_models (roundtable config)).

End Manager.

(** ** [config/models.py]: the default models *)

Module Defaults.

Section Validator.

(** The values of the raw [models] mapping are of any type; [dict_value]
    is a dict literal of strings among them. *)
Variable V : Type.
Variable dict_value : list (str * str) -> V.

Definition default_openai : V :=
  dict_value [(lit "provider", lit "openai"); (lit "model", lit "gpt-4");
              (lit "api_key", lit "env:OPENAI_API_KEY")].

Definition default_claude : V :=
  dict_value [(lit "provider", lit "anthropic");
              (lit "model", lit "claude-3-sonnet-20240229");
              (lit "api_key", lit "env:ANTHROPIC_API_KEY")].

Definition default_ollama : V :=
  dict_value [(lit "provider", lit "ollama"); (lit "model", lit "llama2");
              (lit "endpoint", lit "http://localhost:11434")].

(** [if name not in v: v[name] = value] *)
Definition setdefault (name : str) (value : V) (v : gmap str V)
    : gmap str V :=
  match v !! name with
  | None => <[name := value]> v
  | Some _ => v
  end.

(** The validator of [models]; its argument is [None] or a dict. *)
Definition ensure_default_models (v : option (gmap str V)) : gmap str V :=
  let v :=
    match v with
    | Some v => if bool_decide (v = ∅) then ∅ else v
    | None => ∅
    end in
  let v := setdefault (lit "openai/gpt-4") default_openai v in
  let v := setdefault (lit "anthropic/claude-3-sonnet") default_claude v in
  let v := setdefault (lit "ollama/llama2") default_ollama v in
  v.

(** The default entry of a name, if it has one. *)
Definition default_entry (name : str) : option V :=
  if bool_decide (name = lit "openai/gpt-4") then Some default_openai
  else if bool_decide (name = lit "anthropic/claude-3-sonnet")
  then Some default_claude
  else if bool_decide (name = lit "ollama/llama2") then Some default_ollama
  else None.

End Validator.

End Defaults.

(** ** [providers/base.py] and [providers/litellm_provider.py] *)

Module LiteLLM.

(** A chunk of a streamed completion, as far as [chat_stream] looks at it:
    [choices] is [None] when the chunk has no such attribute, and
    [delta_content] is [None] when the delta has no [content] or a
    [content] of [None]. *)
Record Choice := { delta_content : option str }.
Record Chunk := { choices : option (list Choice) }.

(** What [litellm.acompletion] is called with. *)
Record request := {
  r_model : str;
  r_messages : list (str * str);
  r_stream : bool;
  r_temperature : spec_float;
  r_max_tokens : Z;
  r_api_base : option str
}.

(** What [litellm.acompletion] does: it raises, or it returns a stream
    that yields chunks and then ends or raises. *)
Inductive completion :=
| Refused (e : exc)
| Streaming (chunks : list Chunk) (broken : option exc).

(** [AIProvider._messages_to_dict]: a dict with the keys [role] and
    [content] per message. *)
Definition _messages_to_dict (messages : list ChatMessage)
    : list (str * str) :=
  map (fun msg => (role msg, content msg)) messages.

Definition _get_litellm_model_name (config : ModelConfig) : str :=
  match provider config with
  | openai => model config
  | anthropic => model config
  | ollama => lit "ollama/" ++ model config
  | gemini => lit "gemini/" ++ model config
  end.

(** [x if x else None] for an optional string. *)
Definition or_none (x : option str) : option str :=
  match x with
  | Some s => if truthy s then Some s else None
  | None => None
  end.

(** What the body of [async for chunk in response] yields for a chunk. *)
Definition yielded (chunk : Chunk) : list str :=
  match choices chunk with
  | Some (choice :: _) =>
      match delta_content choice with
      | Some text => if truthy text then [text] else []
      | None => []
      end
  | Some [] | None => []
  end.

Section Provider.

Variable acompletion : request -> completion.
Variable config : ModelConfig.

Definition chat_request (messages : list ChatMessage) : request :=
  {| r_model := _get_litellm_model_name config;
     r_messages := _messages_to_dict messages;
     r_stream := true;
     r_temperature := temperature config;
     r_max_tokens := max_tokens config;
     r_api_base := or_none (endpoint config) |}.

(** The [try] block of [chat_stream]: what it yields, and the exception
    that ends it, if any. *)
Definition chat_stream_body (messages : list ChatMessage)
    : list str * option exc :=
  match acompletion (chat_request messages) with
  | Refused e => ([], Some e)
  | Streaming chunks broken => (flat_map yielded chunks, broken)
  end.

(** [chat_stream]: the fragments it yields and the exception that leaves
    it, if any. *)
Definition chat_stream (messages : list ChatMessage)
    : list str * option exc :=
  match chat_stream_body messages with
  | (fragments, Some e) =>
      (fragments ++ [lit "Error: " ++ exc_str e], None)
  | (fragments, None) => (fragments, None)
  end.

End Provider.

End LiteLLM.

(** ** [core/chat.py]: a chat with one model *)

Module SingleChat.

(** What [single_chat] shows and asks, in order: the line that names the
    model, the messages given to [provider.chat_stream], an update of the
    streaming display, its finalisation, the error line. *)
Inductive step :=
| ModelInfo (model_name : str) (p : Provider)
| Sent (messages : list ChatMessage)
| Update (response model_name : str)
| Finalized
| ErrorWith (model_name msg : str).

(** What [provider.chat_stream(messages)] yields, and the exception that
    ends it, if any. *)
Definition stream : Type := list str * option exc.

(** [ProviderFactory.get_provider]: it raises or returns a provider. *)
Definition provider_factory : Type :=
  str -> exc + (list ChatMessage -> stream).

(** [async for chunk in ...: response += chunk; update_response(...)] *)
Fixpoint stream_response (model_name response : str) (chunks : list str)
    : list step * str :=
  match chunks with
  | [] => ([], response)
  | chunk :: rest =>
      let response := response ++ chunk in
      let '(steps, final) := stream_response model_name response rest in
      (Update response model_name :: steps, final)
  end.

(** [rich] reads the text given to [console.print] as markup and raises
    [MarkupError] for a closing tag that closes nothing: a [markup] gives
    the exception that printing a text raises, if any.  It is consulted
    where the text holds an exception's message, typed input or earlier
    input; fixed texts and texts that hold only names and values of the
    configuration are taken to print. *)
Definition markup : Type := str -> option exc.

(** The error line of [single_chat], as it is given to [console.print]. *)
Definition error_with_markup (model_name : str) (e : exc) : str :=
  lit "[red]" ++ [10060%N] ++ lit " Error with " ++ model_name ++ lit ": "
  ++ exc_str e ++ lit "[/red]".

Section Engine.

Variable config : AIConfig.
Variable get_provider : provider_factory.
Variable markup_error : markup.

(** The [try] block of [single_chat]. *)
Definition single_chat_body (prompt model_name : str)
    : list step * (exc + unit) :=
  match get_provider model_name with
  | inl e => ([], inl e)
  | inr provider =>
      match fst (get_model_config model_name config) with
      | inl e => ([], inl e)
      | inr model_config =>
          let messages := [ChatMessage_init (lit "user") prompt None] in
          let '(chunks, broken) := provider messages in
          let '(updates, response) := stream_response model_name [] chunks in
          let shown :=
            [ModelInfo model_name (Config.provider model_config);
             Sent messages]
            ++ updates in
          match broken with
          | Some e => (shown, inl e)
          | None => (shown ++ [Finalized], inr tt)
          end
      end
  end.

(** The [except Exception as e] block of [single_chat] after the steps
    [shown]: the error line is printed and [e] raised again, unless the
    print raises, which then is the exception that leaves the method. *)
Definition report (model_name : str) (e : exc) (shown : list step)
    : list step * (exc + unit) :=
  match markup_error (error_with_markup model_name e) with
  | None => (shown ++ [ErrorWith model_name (exc_str e)], inl e)
  | Some e' => (shown, inl e')
  end.

Definition single_chat (prompt model_name : str)
    : list step * (exc + unit) :=
  match single_chat_body prompt model_name with
  | (shown, inl e) => report model_name e shown
  | (shown, inr tt) => (shown, inr tt)
  end.

End Engine.

(** The texts the streaming display was updated with. *)
Definition updates (steps : list step) : list str :=
  omap (fun s => match s with Update r _ => Some r | _ => None end) steps.

(** The message lists given to the provider. *)
Definition sent (steps : list step) : list (list ChatMessage) :=
  omap (fun s => match s with Sent ms => Some ms | _ => None end) steps.

(** The steps of a chat that got as far as the stream: the model line,
    the question, and one update per chunk with the text so far. *)
Definition streamed (model_name : str) (mc : ModelConfig) (prompt : str)
    (chunks : list str) : list step :=
  [ModelInfo model_name (Config.provider mc);
   Sent [ChatMessage_init (lit "user") prompt None]]
  ++ map (fun r => Update r model_name)
       (map (fun k => join (take (S k) chunks)) (seq 0 (length chunks))).

End SingleChat.

(** ** [ui/interactive.py] *)

Module Interactive.

Import SingleChat.

(** [s.split()]: the words of [s] between runs of whitespace; [word] is
    the word being read, last character first. *)
Fixpoint split_words (word s : str) : list str :=
  match s with
  | [] => match word with [] => [] | _ => [rev word] end
  | c :: s' =>
      if isspace c then
        match word with
        | [] => split_words [] s'
        | _ => rev word :: split_words [] s'
        end
      else split_words (c :: word) s'
  end.

Definition split (s : str) : list str := split_words [] s.

(** [' '.join(words)] *)
Fixpoint join_spaces (words : list str) : str :=
  match words with
  | [] => []
  | [w] => w
  | w :: rest => w ++ lit " " ++ join_spaces rest
  end.

(** What the session puts on the console, with what the chat engine
    shows in between. *)
Inductive said :=
| Welcome (current_model : str)
| Goodbye
| Help
| Cleared
| NoHistory
| HistoryTitle
| HistoryLine (from_user : bool) (role text : str)
| CurrentModel (name : str) (p : Provider) (model : str) (t : spec_float)
| AvailableModels (current_model : str)
| RoundtableUsage
| ConfigInfo
| UnknownCommand (cmd : str)
| Switched (old_model new_model : str)
| ModelNotFound (model_name : str)
| ErrorLine (msg : str)
| Chat (s : step)
| Table (ev : event).

(** The session's own state. *)
Record InteractiveSession := {
  conversation_history : list (str * str);
  current_model : str
}.

(** What [session.prompt_async] does: it returns a line, or the user
    presses Ctrl-C, or the input ends.  After Ctrl-C the handler calls
    [confirm], which answers or raises ([KeyboardInterrupt] or [EOFError],
    when the user does not answer either). *)
Inductive input :=
| Line (user_input : str)
| Interrupt (confirmed : exc + bool)
| EndOfFile.

(** A method of the session. *)
Definition Act (A : Type) : Type :=
  InteractiveSession -> list said * (exc + A) * InteractiveSession.

(** The texts given to [console.print] that hold an exception's message,
    typed input or earlier input. *)
Definition error_markup (msg : str) : str :=
  lit "[red]Error: " ++ msg ++ lit "[/red]".

Definition unknown_command_markup (cmd : str) : str :=
  lit "[red]Unknown command: " ++ cmd ++ lit "[/red]".

Definition model_not_found_markup (model_name : str) : str :=
  lit "[red]Model '" ++ model_name ++ lit "' not found[/red]".

(** [content[:100]], and three dots behind it when the content is
    longer. *)
Definition shortened (content : str) : str :=
  take 100 content
  ++ if (100 <? length content)%nat then lit "..." else [].

Definition history_markup (entry : str * str) : str :=
  let '(role, content) := entry in
  (if bool_decide (role = lit "user") then [128100%N] else [129302%N])
  ++ lit " [" ++ role ++ lit "] " ++ shortened content.

Section Session.

Variable config : AIConfig.
Variable get_provider : provider_factory.
Variable client : provider_client.
Variable markup_error : markup.

(** [str.lower], by the Unicode tables of the interpreter. *)
Variable lower : str -> str.

(** [InteractiveSession.__init__] *)
Definition new_session : InteractiveSession :=
  {| conversation_history := []; current_model := default_model config |}.

(** [console.print(text)] for a text that may fail to print; [line] is
    what it shows. *)
Definition console_print (text : str) (line : said) : Act unit :=
  fun self =>
    match markup_error text with
    | None => ([line], inr tt, self)
    | Some e => ([], inl e, self)
    end.

Definition _handle_chat (prompt : str) : Act unit :=
  fun self =>
    match single_chat config get_provider markup_error prompt
            (current_model self) with
    | (steps, inr _) =>
        (map Chat steps, inr tt,
         {| conversation_history :=
              conversation_history self
              ++ [(lit "user", prompt)]
              ++ [(lit "assistant", lit "Response received")];
            current_model := current_model self |})
    | (steps, inl e) =>
        let '(shown, r, self') :=
          console_print (error_markup (exc_str e)) (ErrorLine (exc_str e))
            self in
        (map Chat steps ++ shown, r, self')
    end.

Definition _handle_roundtable (prompt : str) : Act unit :=
  fun self =>
    match roundtable_chat config client prompt false with
    | (t, inr _) => (map Table t, inr tt, self)
    | (t, inl e) =>
        let '(shown, r, self') :=
          console_print (error_markup (exc_str e)) (ErrorLine (exc_str e))
            self in
        (map Table t ++ shown, r, self')
    end.

Definition _show_available_models : Act unit :=
  fun self => ([AvailableModels (current_model self)], inr tt, self).

Definition _change_model (model_name : str) : Act unit :=
  fun self =>
    if bool_decide (model_name ∈ dom (models config)) then
      ([Switched (current_model self) model_name], inr tt,
       {| conversation_history := conversation_history self;
          current_model := model_name |})
    else
      match console_print (model_not_found_markup model_name)
              (ModelNotFound model_name) self with
      | (shown, inl e, self') => (shown, inl e, self')
      | (shown, inr _, self') =>
          let '(shown', r, self'') := _show_available_models self' in
          (shown ++ shown', r, self'')
      end.

Definition _show_current_model : Act unit :=
  fun self =>
    match fst (get_model_config (current_model self) config) with
    | inl e => ([], inl e, self)
    | inr model_config =>
        ([CurrentModel (current_model self) (provider model_config)
            (model model_config) (temperature model_config)],
         inr tt, self)
    end.

(** One line of [_show_history]. *)
Definition history_line (entry : str * str) : said :=
  let '(role, content) := entry in
  HistoryLine (bool_decide (role = lit "user")) role (shortened content).

(** [l[-10:]] *)
Definition last_ten {A} (l : list A) : list A := drop (length l - 10) l.

(** The [for] loop of [_show_history]: the lines shown, and the
    exception of the first print that raises, if any. *)
Fixpoint show_lines (entries : list (str * str)) : list said * option exc :=
  match entries with
  | [] => ([], None)
  | entry :: rest =>
      match markup_error (history_markup entry) with
      | Some e => ([], Some e)
      | None =>
          let '(shown, r) := show_lines rest in
          (history_line entry :: shown, r)
      end
  end.

Definition _show_history : Act unit :=
  fun self =>
    match conversation_history self with
    | [] => ([NoHistory], inr tt, self)
    | _ =>
        let '(shown, r) := show_lines (last_ten (conversation_history self)) in
        (HistoryTitle :: shown,
         match r with Some e => inl e | None => inr tt end,
         self)
    end.

(** [_handle_command]: whether the session is to end. *)
Definition _handle_command (command : str) : Act bool :=
  fun self =>
    match split command with
    | [] => ([], inl (Raise OtherException (lit "list index out of range")),
             self)
    | part0 :: args =>
        let cmd := lower part0 in
        let finish (r : list said * (exc + unit) * InteractiveSession)
            : list said * (exc + bool) * InteractiveSession :=
          let '(shown, result, self') := r in
          (shown,
           match result with inl e => inl e | inr _ => inr false end,
           self') in
        if bool_decide (cmd ∈ [lit "/exit"; lit "/quit"]) then
          ([], inr true, self)
        else if bool_decide (cmd = lit "/help") then
          ([Help], inr false, self)
        else if bool_decide (cmd = lit "/clear") then
          ([Cleared], inr false,
           {| conversation_history := [];
              current_model := current_model self |})
        else if bool_decide (cmd = lit "/history") then
          finish (_show_history self)
        else if bool_decide (cmd = lit "/model") then
          match args with
          | model_name :: _ => finish (_change_model model_name self)
          | [] => finish (_show_current_model self)
          end
        else if bool_decide (cmd = lit "/models") then
          finish (_show_available_models self)
        else if bool_decide (cmd = lit "/roundtable") then
          match args with
          | _ :: _ => finish (_handle_roundtable (join_spaces args) self)
          | [] => ([RoundtableUsage], inr false, self)
          end
        else if bool_decide (cmd = lit "/config") then
          ([ConfigInfo], inr false, self)
        else
          finish (console_print (unknown_command_markup cmd)
                    (UnknownCommand cmd) self)
    end.

(** The [while True] loop of [run] over the inputs that are to come; when
    they are used up the input has ended.  The result is what the loop
    showed, the exception that left it, if any, and the session as the
    loop leaves it.  Only [KeyboardInterrupt] and [EOFError] of the prompt
    are caught: an exception of a command, of a chat's error line or of
    [confirm] leaves the loop. *)
Fixpoint loop (inputs : list input) (self : InteractiveSession)
    : list said * option exc * InteractiveSession :=
  match inputs with
  | [] => ([], None, self)
  | EndOfFile :: _ => ([], None, self)
  | Interrupt confirmed :: rest =>
      match confirmed with
      | inl e => ([], Some e, self)
      | inr true => ([], None, self)
      | inr false => loop rest self
      end
  | Line user_input :: rest =>
      if negb (truthy (strip user_input)) then loop rest self
      else if startswith user_input (lit "/") then
        match _handle_command user_input self with
        | (shown, inl e, self') => (shown, Some e, self')
        | (shown, inr true, self') => (shown, None, self')
        | (shown, inr false, self') =>
            let '(shown', r, self'') := loop rest self' in
            (shown ++ shown', r, self'')
        end
      else
        match _handle_chat user_input self with
        | (shown, inl e, self') => (shown, Some e, self')
        | (shown, inr _, self') =>
            let '(shown', r, self'') := loop rest self' in
            (shown ++ shown', r, self'')
        end
  end.

Definition run (inputs : list input) (self : InteractiveSession)
    : list said * (exc + unit) * InteractiveSession :=
  match loop inputs self with
  | (shown, Some e, self') =>
      (Welcome (current_model self) :: shown, inl e, self')
  | (shown, None, self') =>
      (Welcome (current_model self) :: shown ++ [Goodbye], inr tt, self')
  end.

End Session.

(** The message lists given to a provider by the single chats of a
    session. *)
Definition questions (shown : list said) : list (list ChatMessage) :=
  omap (fun s => match s with Chat (Sent ms) => Some ms | _ => None end)
    shown.

(** The entries a chat that returned leaves in the history. *)
Definition history_of (prompts : list str) : list (str * str) :=
  flat_map (fun p => [(lit "user", p);
                      (lit "assistant", lit "Response received")]) prompts.

(** What a line on the console tells about the history, read together
    with the prompt that was sent last: the line of [/clear] empties the
    history, the question of a chat is remembered, and the finalisation of
    the display, which is the last step of a chat that returns, adds the
    question and the fixed assistant entry. *)
Definition record_step (st : list (str * str) * option str) (s : said)
    : list (str * str) * option str :=
  let '(history, asked) := st in
  match s with
  | Cleared => ([], asked)
  | Chat (Sent [msg]) => (history, Some (content msg))
  | Chat Finalized =>
      match asked with
      | Some prompt => (history ++ history_of [prompt], None)
      | None => (history, None)
      end
  | _ => st
  end.

(** The history after the lines [shown], from [history]. *)
Definition recorded (history : list (str * str)) (shown : list said)
    : list (str * str) :=
  fst (fold_left record_step shown (history, None)).

(** Lines that are neither the line of [/clear] nor a step of a chat. *)
Definition aside (s : said) : Prop :=
  match s with
  | Cleared | Chat _ => False
  | _ => True
  end.

(** [asked_of inputs shown]: every message list given to a provider is a
    line of [inputs] as a single user message. *)
Definition asked_of (inputs : list input) (shown : list said) : Prop :=
  Forall (fun ms => exists p,
            Line p ∈ inputs /\ ms = [ChatMessage_init (lit "user") p None])
    (questions shown).

(** [escaped markup_error inputs e]: [e] is the exception of a print or
    of a [confirm] of [inputs]. *)
Definition escaped (markup_error : markup) (inputs : list input) (e : exc)
    : Prop :=
  (exists text, markup_error text = Some e)
  \/ Interrupt (inl e) ∈ inputs.

(** [entry_of inputs history entry]: the entry is one of [history], or a
    line of [inputs] as a user entry, or the fixed assistant entry. *)
Definition entry_of (inputs : list input) (history : list (str * str))
    (entry : str * str) : Prop :=
  entry ∈ history
  \/ entry = (lit "assistant", lit "Response received")
  \/ exists p, Line p ∈ inputs /\ entry = (lit "user", p).

(** What a stretch of a session keeps: it shows [shown], ends with
    [result] and takes the session from [self] to [self'], on
    [inputs]. *)
Definition kept (config : AIConfig) (markup_error : markup)
    (inputs : list input) (self : InteractiveSession) (shown : list said)
    (result : option exc) (self' : InteractiveSession) : Prop :=
  asked_of inputs shown
  /\ (forall asked,
        fst (fold_left record_step shown (conversation_history self, asked))
        = conversation_history self')
  /\ Forall (entry_of inputs (conversation_history self))
       (conversation_history self')
  /\ (is_Some (models config !! current_model self) ->
      is_Some (models config !! current_model self')
      /\ forall e, result = Some e -> escaped markup_error inputs e).

End Interactive.

(** ** [cli.py]: the [config set] command *)

Module Cli.

(** The text before the first [sep] of [s] and the text behind it, when
    there is one. *)
Fixpoint cut (sep : char) (s : str) : option (str * str) :=
  match s with
  | [] => None
  | c :: s' =>
      if decide (c = sep) then Some ([], s')
      else match cut sep s' with
           | Some (before, after) => Some (c :: before, after)
           | None => None
           end
  end.

(** [s.split(sep, maxsplit)] for a separator of one character. *)
Fixpoint split_sep (sep : char) (maxsplit : nat) (s : str) : list str :=
  match maxsplit with
  | O => [s]
  | S n =>
      match cut sep s with
      | Some (before, after) => before :: split_sep sep n after
      | None => [s]
      end
  end.

(** The full stop. *)
Definition dot : char := 46%N.

(** The value of a setting after its conversion. *)
Inductive converted :=
| AsFloat (x : spec_float)
| AsInt (n : Z)
| AsBool (b : bool)
| AsStr (s : str).

(** The calls of the command on the configuration manager. *)
Inductive manager_call :=
| SetDefaultModel (value : str)
| UpdateModel (model_name setting : str) (value : converted).

Inductive printed :=
| DefaultModelSet (value : str)
| Updated (model_name setting value : str)
| ErrorPrinted (msg : str).

(** How the command ends: it returns, or raises [typer.Exit(code)]. *)
Inductive ended := Returns | Exits (code : Z).

Section ConfigSet.

(** [float(value)] and [int(value)], by the interpreter's parsers, and
    [str.lower]. *)
Variable to_float : str -> exc + spec_float.
Variable to_int : str -> exc + Z.
Variable lower : str -> str.

(** What the configuration manager answers to a call. *)
Variable manager : manager_call -> exc + unit.

Definition convert (setting value : str) : exc + converted :=
  if bool_decide (setting ∈ [lit "temperature"]) then
    match to_float value with
    | inl e => inl e
    | inr x => inr (AsFloat x)
    end
  else if bool_decide (setting ∈ [lit "max_tokens"; lit "context_window"])
  then
    match to_int value with
    | inl e => inl e
    | inr n => inr (AsInt n)
    end
  else if bool_decide (setting ∈ [lit "streaming"; lit "critique_mode";
                                  lit "parallel_responses"]) then
    inr (AsBool (bool_decide (lower value ∈ [lit "true"; lit "1";
                                             lit "yes"; lit "on"])))
  else inr (AsStr value).

(** The [try] block of [config_set]: the calls made on the manager, and
    the exception raised or the line printed last. *)
Definition config_set_body (key value : str)
    : list manager_call * (exc + printed) :=
  if bool_decide (key = lit "default_model") then
    match manager (SetDefaultModel value) with
    | inl e => ([SetDefaultModel value], inl e)
    | inr _ => ([SetDefaultModel value], inr (DefaultModelSet value))
    end
  else if startswith key (lit "model.") then
    match split_sep dot 2 key with
    | [_; model_name; setting] =>
        match convert setting value with
        | inl e => ([], inl e)
        | inr v =>
            match manager (UpdateModel model_name setting v) with
            | inl e => ([UpdateModel model_name setting v], inl e)
            | inr _ =>
                ([UpdateModel model_name setting v],
                 inr (Updated model_name setting value))
            end
        end
    | _ =>
        ([], inl (Raise ValueError
                    (lit "Model setting format: model.<model_name>.<setting>")))
    end
  else
    ([], inl (Raise ValueError (lit "Unknown configuration key: " ++ key))).

(** [config_set]: every exception of the block is printed and turned into
    [typer.Exit(1)]. *)
Definition config_set (key value : str)
    : list manager_call * list printed * ended :=
  match config_set_body key value with
  | (calls, inr done) => (calls, [done], Returns)
  | (calls, inl e) => (calls, [ErrorPrinted (exc_str e)], Exits 1)
  end.

End ConfigSet.

End Cli.

(** ** More concrete configurations, providers and sessions *)

Module Scenarios.

Import Examples Manager LiteLLM SingleChat Interactive.

(** A key as a provider hands it out. *)
Definition secret : str := lit "sk-0123456789abcdef".

(** An OpenAI model with a resolved key, and a local one. *)
Definition keyed_model : ModelConfig :=
  {| provider := openai; api_key := Some secret; endpoint := None;
     model := lit "gpt-4"; max_tokens := 4000;
     temperature := default_temperature; context_window := 4000 |}.

Definition local_model : ModelConfig :=
  {| provider := ollama; api_key := Some secret; endpoint := None;
     model := lit "llama3"; max_tokens := 4000;
     temperature := default_temperature; context_window := 4000 |}.

Definition keyed : AIConfig :=
  {| default_model := model_a;
     models := <[model_a := keyed_model]> default_models;
     roundtable := roundtable (table true);
     ui := default_ui |}.

(** Two of the three default models enabled. *)
Definition pair : AIConfig :=
  {| default_model := model_a;
     models := default_models;
     roundtable :=
       {| enabled_models := [model_a; model_b];
          discussion_rounds := 2;
          critique_mode := true;
          parallel_responses := false;
          timeout_seconds := 30 |};
     ui := default_ui |}.

(** A default model that has no configuration. *)
Definition orphan : AIConfig :=
  {| default_model := lit "gpt-5";
     models := default_models;
     roundtable := roundtable (table true);
     ui := default_ui |}.

(** A completion that yields two fragments around an empty chunk and then
    breaks. *)
Definition breaking : request -> completion :=
  fun _ =>
    Streaming
      [ {| choices := Some [ {| delta_content := Some (lit "Hel") |} ] |};
        {| choices := Some [] |};
        {| choices := Some [ {| delta_content := Some (lit "lo ") |} ] |} ]
      (Some (Raise OtherException (lit "connection reset"))).

(** The LiteLLM provider of a model as the engine's provider client. *)
Definition litellm_client (acompletion : request -> completion)
    (config : ModelConfig) : provider_client :=
  fun _ messages =>
    {| latency := 1;
       fragments := fst (chat_stream acompletion config messages);
       failure := snd (chat_stream acompletion config messages) |}.

(** A factory whose providers answer in two chunks. *)
Definition two_chunks : list ChatMessage -> stream :=
  fun _ => ([lit "Hel"; lit "lo"], None).

Definition echo_factory : provider_factory := fun _ => inr two_chunks.

(** A console on which every text prints. *)
Definition plain : markup := fun _ => None.

(** A chat, a command and the end of the session. *)
Definition script : list input :=
  [Line hello; Line (lit "/model"); Line (lit "/exit")].

End Scenarios.

(** ** Properties of the configuration lookup *)

Lemma get_model_config_legacy_eq model_name self :
  get_model_config_legacy model_name self = get_model_config model_name self.
Proof.
  unfold get_model_config_legacy, get_model_config.
  destruct (models self !! model_name); reflexivity.
Qed.

(** C10. [get_model_config(model_name)] raises [ValueError] if and only if
    [model_name] is not a key of [models]; when the key is present the call
    returns the [ModelConfig] stored under it; in both versions of the
    method, and in every case, the configuration is left as it was. *)
Theorem get_model_config_spec (self : AIConfig) (model_name : str) :
  let r := get_model_config model_name self in
  get_model_config_legacy model_name self = r
  /\ snd r = self
  /\ ((exists e, fst r = inl e /\ exc_type e = ValueError)
      <-> models self !! model_name = None)
  /\ (forall mc, models self !! model_name = Some mc -> fst r = inr mc).
Proof.
  cbv zeta. rewrite get_model_config_legacy_eq.
  unfold get_model_config.
  destruct (models self !! model_name) as [mc|] eqn:E; cbn.
  - split; [reflexivity|]. split; [reflexivity|]. split.
    + split; [intros (e & He & _); discriminate | discriminate].
    + intros mc' [= <-]. reflexivity.
  - split; [reflexivity|]. split; [reflexivity|]. split.
    + split; [reflexivity|]. intros _. eexists. split; reflexivity.
    + discriminate.
Qed.


(** ** Ordered dicts *)

Section OrderedDict.

Implicit Types (d : odict) (k v : str).

Lemma keys_app d1 d2 : keys (d1 ++ d2) = keys d1 ++ keys d2.
Proof. apply map_app. Qed.

Lemma setitem_fresh d k v : k ∉ keys d -> setitem d k v = d ++ [(k, v)].
Proof.
  induction d as [|[k' v'] d IH]; cbn; intros Hk; [reflexivity|].
  rewrite not_elem_of_cons in Hk. destruct Hk as [Hne Hk].
  destruct (decide (k = k')); [contradiction|].
  now rewrite IH.
Qed.

Lemma getitem_setitem d k v : getitem (setitem d k v) k = Some v.
Proof.
  induction d as [|[k' v'] d IH]; cbn.
  - now rewrite decide_True.
  - destruct (decide (k = k')) as [->|Hne]; cbn.
    + now rewrite decide_True.
    + now rewrite decide_False.
Qed.

Lemma getitem_setitem_ne d k k' v :
  k <> k' -> getitem (setitem d k v) k' = getitem d k'.
Proof.
  intros Hne. induction d as [|[k0 v0] d IH]; cbn.
  - rewrite decide_False; [reflexivity | congruence].
  - destruct (decide (k = k0)) as [->|Hne0]; cbn.
    + rewrite !decide_False; [reflexivity | congruence | congruence].
    + destruct (decide (k' = k0)); [reflexivity | exact IH].
Qed.

Lemma keys_setitem_elem d k v k' :
  k' ∈ keys (setitem d k v) <-> k' = k \/ k' ∈ keys d.
Proof.
  unfold keys. induction d as [|[k0 v0] d IH]; cbn.
  - rewrite list_elem_of_singleton. split; [now left|].
    intros [->|H]; [reflexivity | inversion H].
  - destruct (decide (k = k0)) as [->|Hne]; cbn;
      rewrite !elem_of_cons, ?IH; tauto.
Qed.

Lemma getitem_is_Some d k : is_Some (getitem d k) <-> k ∈ keys d.
Proof.
  induction d as [|[k0 v0] d IH]; cbn.
  - split; [intros [? [=]] | intros H; inversion H].
  - destruct (decide (k = k0)) as [->|Hne].
    + split; [intros _; left | intros _; eauto].
    + rewrite IH, elem_of_cons. tauto.
Qed.

Lemma getitem_app_fresh d1 d2 k :
  k ∉ keys d1 -> getitem (d1 ++ d2) k = getitem d2 k.
Proof.
  induction d1 as [|[k0 v0] d1 IH]; cbn; intros Hk; [reflexivity|].
  rewrite not_elem_of_cons in Hk. destruct Hk as [Hne Hk].
  rewrite decide_False by assumption. now apply IH.
Qed.

(** With pairwise distinct keys an entry is found under its key. *)
Lemma getitem_elem d k v : NoDup (keys d) -> (k, v) ∈ d -> getitem d k = Some v.
Proof.
  induction d as [|[k0 v0] d IH]; cbn; intros Hnd Hin; [inversion Hin|].
  apply NoDup_cons in Hnd as [Hk0 Hnd].
  apply elem_of_cons in Hin as [[= -> ->]|Hin].
  - now rewrite decide_True.
  - destruct (decide (k = k0)) as [->|Hne]; [|now apply IH].
    exfalso. apply Hk0. unfold keys. apply list_elem_of_fmap.
    now exists (k0, v).
Qed.

(** Assigning a run of fresh, pairwise distinct keys appends them. *)
Lemma setitems_fresh (es : odict) d :
  NoDup (keys d ++ keys es) -> setitems es d = d ++ es.
Proof.
  unfold setitems.
  revert d. induction es as [|[k v] es IH]; cbn; intros d Hnd.
  - now rewrite app_nil_r.
  - assert (k ∉ keys d) as Hk.
    { apply NoDup_app in Hnd as (_ & Hdisj & _). intros Hin.
      apply (Hdisj _ Hin). left. }
    rewrite (setitem_fresh _ _ _ Hk), IH.
    + now rewrite <- app_assoc.
    + rewrite keys_app; cbn. rewrite <- app_assoc. exact Hnd.
Qed.

Lemma keys_setitem d k v :
  keys (setitem d k v) = if decide (k ∈ keys d) then keys d else keys d ++ [k].
Proof.
  destruct (decide (k ∈ keys d)) as [Hin|Hout].
  - unfold keys in *. induction d as [|[k0 v0] d IH]; cbn in *.
    + inversion Hin.
    + destruct (decide (k = k0)) as [->|Hne]; cbn; [reflexivity|].
      apply elem_of_cons in Hin as [->|Hin]; [contradiction|].
      now rewrite IH.
  - rewrite setitem_fresh by assumption. now rewrite keys_app.
Qed.

Lemma setitem_NoDup d k v : NoDup (keys d) -> NoDup (keys (setitem d k v)).
Proof.
  intros Hnd. rewrite keys_setitem. case_decide; [assumption|].
  apply NoDup_app. split; [assumption|]. split; [|apply NoDup_singleton].
  intros x Hx Hx'. apply list_elem_of_singleton in Hx'. now subst.
Qed.

Lemma setitems_NoDup (es : odict) : forall d,
  NoDup (keys d) -> NoDup (keys (setitems es d)).
Proof.
  unfold setitems.
  induction es as [|[k v] es IH]; cbn; intros d Hnd; [assumption|].
  apply IH. now apply setitem_NoDup.
Qed.

Lemma setitems_keys (es : odict) k : forall d,
  k ∈ keys (setitems es d) <-> k ∈ keys d \/ k ∈ keys es.
Proof.
  unfold setitems.
  induction es as [|[k0 v0] es IH]; intros d.
  - cbn. split; [now left | intros [H|H]; [assumption | inversion H]].
  - cbn [fold_left]. rewrite IH, keys_setitem_elem.
    unfold keys. cbn. rewrite elem_of_cons. tauto.
Qed.

Lemma setitems_getitem (es : odict) k v : forall d,
  getitem (setitems es d) k = Some v -> (k, v) ∈ es \/ getitem d k = Some v.
Proof.
  unfold setitems.
  induction es as [|[k0 v0] es IH]; intros d; [now right|].
  cbn [fold_left]. intros H. apply IH in H as [H|H].
  - left. now right.
  - destruct (decide (k0 = k)) as [->|Hne].
    + rewrite getitem_setitem in H. injection H as ->. left. left.
    + rewrite getitem_setitem_ne in H by assumption. now right.
Qed.

Lemma getitem_Some_elem d k v : getitem d k = Some v -> (k, v) ∈ d.
Proof.
  induction d as [|[k0 v0] d IH]; cbn; [discriminate|].
  destruct (decide (k = k0)) as [->|Hne].
  - intros [= ->]. left.
  - intros H. right. now apply IH.
Qed.

End OrderedDict.

(** ** Traces *)

Section Monad.

Context {A B : Type}.

Lemma bind_inr (m : M A) (f : A -> M B) t b :
  bind m f = (t, inr b) ->
  exists t1 a t2, m = (t1, inr a) /\ f a = (t2, inr b) /\ t = t1 ++ t2.
Proof.
  destruct m as [t1 [e|a]]; cbn; [discriminate|].
  destruct (f a) as [t2 r] eqn:E. intros [= <- ->]. eauto 6.
Qed.


End Monad.

Lemma calls_app t1 t2 : calls (t1 ++ t2) = calls t1 ++ calls t2.
Proof. unfold calls. apply omap_app. Qed.

Lemma cancelled_app t1 t2 : cancelled (t1 ++ t2) = cancelled t1 ++ cancelled t2.
Proof. unfold cancelled. apply omap_app. Qed.

Lemma elem_of_cancelled t m : m ∈ cancelled t <-> Cancel m ∈ t.
Proof.
  unfold cancelled. rewrite list_elem_of_omap. split.
  - intros (ev & Hin & Hev). destruct ev; try discriminate.
    now injection Hev as ->.
  - intros Hin. now exists (Cancel m).
Qed.

(** ** The parallel round *)

Section ParallelRound.

Variable config : AIConfig.
Variable client : provider_client.

Abbreviation timeout := (timeout_seconds (roundtable config)).

Lemma _get_model_response_eq model messages :
  _get_model_response client model messages =
    ([Call model messages],
     match failure (client model messages) with
     | Some e => inl e
     | None => inr (strip (join (fragments (client model messages))))
     end).
Proof.
  unfold _get_model_response. cbn.
  destruct (failure (client model messages)); reflexivity.
Qed.

Lemma create_tasks_eq models h :
  create_tasks client models h =
    (map (fun m => Call m h) models,
     inr (map (fun m => (m, task_of client m h)) models)).
Proof.
  induction models as [|m rest IH]; [reflexivity|].
  cbn [create_tasks map]. rewrite IH.
  unfold create_task, task_of, trace, outcome.
  rewrite !_get_model_response_eq. cbn. now rewrite app_nil_r.
Qed.

Lemma await_body_eq model t now d :
  await_body config model t now d =
    (fst (wait_for model t timeout now),
     (if timed_out config t now then [Cancel model] else [],
      inr (setitem d model (parallel_entry config model t now)))).
Proof.
  unfold await_body, wait_for, parallel_entry, timed_out.
  destruct (done_at t <=? now + timeout); cbn.
  - destruct (result t) as [e|response]; cbn; [|reflexivity].
    destruct (exc_type e); reflexivity.
  - reflexivity.
Qed.

Lemma await_tasks_eq tasks : forall now d,
  await_tasks config tasks now d =
    (flat_map (late config) (awaited config tasks now),
     inr (setitems (map (entry config) (awaited config tasks now)) d)).
Proof.
  induction tasks as [|[m t] rest IH]; intros now d; [reflexivity|].
  cbn [await_tasks awaited]. rewrite await_body_eq.
  cbn [bind]. rewrite IH. reflexivity.
Qed.

Lemma awaited_tasks tasks : forall now,
  map fst (awaited config tasks now) = tasks.
Proof.
  induction tasks as [|[m t] rest IH]; intros now; cbn; [reflexivity|].
  now rewrite IH.
Qed.

Lemma keys_entries tasks now :
  keys (map (entry config) (awaited config tasks now)) = map fst tasks.
Proof.
  unfold keys. rewrite map_map.
  rewrite <- (awaited_tasks tasks now) at 2. now rewrite map_map.
Qed.

(** An await ends no earlier than it begins and at most [timeout] later. *)
Lemma wait_for_end model t now :
  0 <= timeout ->
  now <= fst (wait_for model t timeout now) <= now + timeout.
Proof.
  intros HT. unfold wait_for.
  destruct (Z.leb_spec (done_at t) (now + timeout)); cbn; lia.
Qed.

Lemma awaited_lookup tasks : forall now k m t s,
  awaited config tasks now !! k = Some (m, t, s) ->
  tasks !! k = Some (m, t)
  /\ (0 <= timeout -> now <= s <= now + Z.of_nat k * timeout).
Proof.
  induction tasks as [|[m0 t0] rest IH]; intros now k m t s; [easy|].
  destruct k as [|k]; cbn [awaited lookup list_lookup].
  - intros [= -> -> ->]. split; [reflexivity | lia].
  - intros H. apply IH in H as [Hk Hs]. split; [exact Hk|].
    intros HT. specialize (Hs HT).
    pose proof (wait_for_end m0 t0 now HT). lia.
Qed.

Lemma awaited_lookup_inv tasks : forall now k m t,
  tasks !! k = Some (m, t) ->
  exists s, awaited config tasks now !! k = Some (m, t, s).
Proof.
  induction tasks as [|[m0 t0] rest IH]; intros now k m t; [easy|].
  destruct k as [|k]; cbn [awaited lookup list_lookup].
  - intros [= -> ->]. eauto.
  - apply IH.
Qed.

(** The round as a whole: the calls, then the cancellations, then the
    columns; it never raises. *)
Lemma _run_parallel_round_eq h models :
  let ws := awaited config (map (fun m => (m, task_of client m h)) models) 0 in
  let responses := setitems (map (entry config) ws) [] in
  _run_parallel_round config client h models =
    (map (fun m => Call m h) models ++ flat_map (late config) ws
       ++ [Print (ResponseColumns responses)],
     inr responses).
Proof.
  cbv zeta. unfold _run_parallel_round.
  rewrite create_tasks_eq. cbn [bind]. rewrite await_tasks_eq.
  reflexivity.
Qed.

Lemma parallel_responses_NoDup h models :
  NoDup models ->
  let ws := awaited config (map (fun m => (m, task_of client m h)) models) 0 in
  setitems (map (entry config) ws) [] = map (entry config) ws.
Proof.
  intros Hnd ws. apply (setitems_fresh _ []). cbn.
  unfold ws. rewrite keys_entries, map_map. cbn. now rewrite map_id.
Qed.

Lemma cancelled_late ws m :
  m ∈ cancelled (flat_map (late config) ws) <->
  exists t s, (m, t, s) ∈ ws /\ timed_out config t s = true.
Proof.
  rewrite elem_of_cancelled. induction ws as [|[[m0 t0] s0] ws IH]; cbn.
  - split; [intros H; inversion H | intros (t & s & H & _); inversion H].
  - rewrite elem_of_app, IH. unfold late at 1. cbn. split.
    + intros [H|(t & s & H & Ht)].
      * destruct (timed_out config t0 s0) eqn:E; [|inversion H].
        apply list_elem_of_singleton in H. injection H as ->.
        exists t0, s0. split; [left | assumption].
      * exists t, s. split; [now right | assumption].
    + intros (t & s & H & Ht). apply elem_of_cons in H as [[= -> -> ->]|H].
      * left. rewrite Ht. left.
      * right. eauto.
Qed.

Lemma cancelled_calls h models :
  cancelled (map (fun m => Call m h) models) = [].
Proof. induction models; [reflexivity | assumption]. Qed.

Lemma awaited_elem h models m t s :
  (m, t, s) ∈ awaited config (map (fun m => (m, task_of client m h)) models) 0 ->
  m ∈ models /\ t = task_of client m h.
Proof.
  intros Hin.
  assert ((m, t) ∈ map (fun m => (m, task_of client m h)) models) as H.
  { rewrite <- (awaited_tasks _ 0). apply list_elem_of_fmap.
    now exists (m, t, s). }
  apply list_elem_of_fmap in H as (m' & [= -> ->] & Hm). now split.
Qed.

Lemma cancelled_parallel_round h models m :
  m ∈ cancelled (trace (_run_parallel_round config client h models)) <->
  exists t s,
    (m, t, s) ∈ awaited config (map (fun m => (m, task_of client m h)) models) 0
    /\ timed_out config t s = true.
Proof.
  rewrite _run_parallel_round_eq. unfold trace. cbn [fst].
  rewrite !cancelled_app, cancelled_calls. cbn [app cancelled omap].
  rewrite app_nil_r. apply cancelled_late.
Qed.

Lemma parallel_round_outcome h models :
  outcome (_run_parallel_round config client h models) =
    inr (setitems
           (map (entry config)
              (awaited config (map (fun m => (m, task_of client m h)) models) 0))
           []).
Proof. now rewrite _run_parallel_round_eq. Qed.

Lemma cancelled_entry h models m :
  NoDup models ->
  m ∈ cancelled (trace (_run_parallel_round config client h models)) ->
  getitem
    (setitems
       (map (entry config)
          (awaited config (map (fun m => (m, task_of client m h)) models) 0))
       []) m = Some (timed_out_msg m).
Proof.
  intros Hnd Hm. rewrite (parallel_responses_NoDup h models Hnd).
  apply cancelled_parallel_round in Hm as (t & s & Hw & Hlate).
  apply getitem_elem.
  - rewrite keys_entries, map_map. cbn. now rewrite map_id.
  - apply list_elem_of_fmap. exists (m, t, s). split; [|exact Hw].
    unfold entry, parallel_entry. cbn [fst snd]. now rewrite Hlate.
Qed.

Lemma awaited_unique h models k m t s t' s' :
  NoDup models ->
  let ws := awaited config (map (fun m => (m, task_of client m h)) models) 0 in
  ws !! k = Some (m, t, s) -> (m, t', s') ∈ ws -> t' = t /\ s' = s.
Proof.
  intros Hnd ws Hk Hin. apply list_elem_of_lookup in Hin as [k' Hk'].
  assert (forall j t0 s0, ws !! j = Some (m, t0, s0) -> models !! j = Some m)
    as Hmodel.
  { intros j t0 s0 Hj. apply awaited_lookup in Hj as [Hj _].
    rewrite list_lookup_fmap in Hj.
    destruct (models !! j) as [m0|]; [|discriminate].
    cbn in Hj. now injection Hj as -> _. }
  assert (k = k') as <-.
  { eapply NoDup_lookup; eauto. }
  rewrite Hk in Hk'. now injection Hk' as <- <-.
Qed.

(** C5. A parallel round never raises; its result has exactly one entry
    for every model of the round and no other; the entry of a model whose
    provider call raises is a marker string, and (for pairwise distinct
    models) so is the entry of a model whose call is cancelled on
    timeout. *)
Theorem parallel_round_entry_per_model h models :
  exists responses,
    outcome (_run_parallel_round config client h models) = inr responses
    /\ NoDup (keys responses)
    /\ (forall m, m ∈ keys responses <-> m ∈ models)
    /\ (forall m e, m ∈ models -> failure (client m h) = Some e ->
          getitem responses m = Some (timed_out_msg m)
          \/ getitem responses m = Some (model_error_msg m e))
    /\ (NoDup models ->
          keys responses = models
          /\ forall m,
               m ∈ cancelled (trace (_run_parallel_round config client h models)) ->
               getitem responses m = Some (timed_out_msg m)).
Proof.
  rewrite _run_parallel_round_eq in *. cbv zeta.
  set (ws := awaited config _ 0) in *.
  exists (setitems (map (entry config) ws) []).
  assert (forall m, m ∈ keys (setitems (map (entry config) ws) []) <-> m ∈ models)
    as Hkeys.
  { intros m. rewrite setitems_keys. unfold ws.
    rewrite keys_entries, map_map. cbn. rewrite map_id. split.
    - intros [H|H]; [inversion H | assumption].
    - now right. }
  split; [reflexivity|]. split; [apply setitems_NoDup, NoDup_nil_2|].
  split; [exact Hkeys|]. split.
  - intros m e Hm He.
    destruct (proj2 (getitem_is_Some _ m) (proj2 (Hkeys m) Hm)) as [v Hv].
    rewrite Hv. apply setitems_getitem in Hv as [Hv|Hv]; [|discriminate].
    apply list_elem_of_fmap in Hv as ([[m' t] s] & [= <- ->] & Hw).
    apply awaited_elem in Hw as [_ ->].
    unfold parallel_entry. cbn [fst snd].
    destruct (timed_out config _ s); [now left|].
    unfold task_of, outcome. rewrite _get_model_response_eq, He. cbn.
    destruct (exc_type e); auto.
  - intros Hnd. split.
    + pose proof (parallel_responses_NoDup h models Hnd) as E.
      cbv zeta in E. fold ws in E. rewrite E.
      unfold ws. rewrite keys_entries, map_map. cbn. now rewrite map_id.
    + intros m Hm. apply (cancelled_entry h models m Hnd).
      now rewrite _run_parallel_round_eq.
Qed.

(** C6, as the code has it.  The await of the [k]-th model begins only
    when the awaits of the models before it have ended, at some time
    [start] between 0 and [k * timeout_seconds] after the round began,
    and lasts at most [timeout_seconds]: the model's call is cancelled,
    and its entry is the timeout marker, exactly when the call is still
    running at [start + timeout_seconds].  So a call that settles within
    [timeout_seconds] is never cancelled, one that takes longer than
    [(k + 1) * timeout_seconds] always is, and whether a call is
    cancelled does not depend on the cancellation of another. *)
Theorem parallel_round_deadline h models k m :
  NoDup models -> 0 < timeout -> models !! k = Some m ->
  let r := _run_parallel_round config client h models in
  exists start responses,
    awaited config (map (fun m => (m, task_of client m h)) models) 0 !! k
      = Some (m, task_of client m h, start)
    /\ 0 <= start <= Z.of_nat k * timeout
    /\ outcome r = inr responses
    /\ (m ∈ cancelled (trace r) <-> start + timeout < latency (client m h))
    /\ (start + timeout < latency (client m h) ->
          getitem responses m = Some (timed_out_msg m))
    /\ (latency (client m h) <= timeout -> m ∉ cancelled (trace r))
    /\ ((Z.of_nat k + 1) * timeout < latency (client m h) ->
          m ∈ cancelled (trace r)).
Proof.
  intros Hnd HT Hk r.
  destruct (awaited_lookup_inv
              (map (fun m => (m, task_of client m h)) models) 0 k m
              (task_of client m h)) as [start Hw].
  { now rewrite list_lookup_fmap, Hk. }
  destruct (awaited_lookup _ _ _ _ _ _ Hw) as [_ Hb].
  specialize (Hb ltac:(lia)).
  assert (m ∈ cancelled (trace r) <-> start + timeout < latency (client m h))
    as Hiff.
  { unfold r. rewrite cancelled_parallel_round. split.
    - intros (t & s & Hin & Hlate).
      destruct (awaited_unique h models k m _ _ t s Hnd Hw Hin) as [-> ->].
      unfold timed_out in Hlate. cbn in Hlate.
      apply negb_true_iff, Z.leb_gt in Hlate. exact Hlate.
    - intros Hlate. exists (task_of client m h), start. split.
      + apply list_elem_of_lookup. now exists k.
      + unfold timed_out. cbn. now apply negb_true_iff, Z.leb_gt. }
  exists start, (setitems
           (map (entry config)
              (awaited config (map (fun m => (m, task_of client m h)) models) 0))
           []).
  split; [exact Hw|]. split; [lia|].
  split; [apply parallel_round_outcome|]. split; [exact Hiff|].
  split; [|split].
  - intros Hlate. apply cancelled_entry; [assumption|]. now apply Hiff.
  - intros Hfast Hc. apply Hiff in Hc. lia.
  - intros Hslow. apply Hiff. nia.
Qed.

End ParallelRound.

(** ** The sequential round *)

Section SequentialRound.

Variable config : AIConfig.
Variable client : provider_client.

Lemma append_responses_eq h d : append_responses h d = h ++ turns d.
Proof.
  unfold append_responses, turns. revert h.
  induction d as [|[m r] d IH]; intros h; cbn.
  - now rewrite app_nil_r.
  - rewrite IH, <- app_assoc. reflexivity.
Qed.

(** One iteration: it calls the model on its context and shows and
    stores the response or the error text; for a model without a
    configuration the panel cannot be drawn, the handler fails the same
    way, and the [ValueError] leaves the round. *)
Lemma sequential_body_eq i m h d :
  sequential_body config client i m h d =
    let ctx := current_history config i h d in
    let v := sequential_entry client m ctx in
    match models config !! m with
    | Some mc =>
        ([Call m ctx; Print (ResponsePanel m (provider mc) v)],
         inr (setitem d m v))
    | None => ([Call m ctx], inl (not_found m))
    end.
Proof.
  cbv zeta. unfold sequential_body, sequential_entry, attempt.
  rewrite _get_model_response_eq.
  unfold _display_single_response, config_get_model_config, get_model_config.
  destruct (failure (client m (current_history config i h d)));
    destruct (models config !! m); reflexivity.
Qed.

Lemma sequential_loop_inr h models : forall i d t r,
  sequential_loop config client i models h d = (t, inr r) ->
  length d = i -> NoDup (keys d ++ models) ->
  exists tail,
    r = d ++ tail
    /\ keys tail = models
    /\ cancelled t = []
    /\ calls t = imap (fun j m => (m, context_of config h r (i + j))) models
    /\ tail = map (fun c => (c.1, sequential_entry client c.1 c.2)) (calls t).
Proof.
  induction models as [|m rest IH]; intros i d t r Hrun Hlen Hnd.
  - cbn in Hrun. injection Hrun as <- <-. exists [].
    now rewrite app_nil_r.
  - cbn [sequential_loop] in Hrun.
    apply bind_inr in Hrun as (t1 & d1 & t2 & Hbody & Hrest & ->).
    rewrite sequential_body_eq in Hbody. cbv zeta in Hbody.
    destruct (models config !! m) as [mc|]; [|discriminate].
    injection Hbody as <- <-.
    assert (m ∉ keys d) as Hfresh.
    { apply NoDup_app in Hnd as (_ & Hdisj & _). intros Hin.
      apply (Hdisj _ Hin). left. }
    rewrite (setitem_fresh _ _ _ Hfresh) in Hrest.
    apply IH in Hrest as (tail & -> & Hkeys & Hcan & Hcalls & Htail).
    + exists ((m, sequential_entry client m (current_history config i h d))
              :: tail).
      assert (current_history config i h d
              = context_of config h ((d ++ [(m, sequential_entry client m
                   (current_history config i h d))]) ++ tail) (i + 0)) as Hctx.
      { unfold current_history, context_of.
        rewrite append_responses_eq, Nat.add_0_r, <- app_assoc.
        subst i. now rewrite take_app_length. }
      split; [now rewrite <- app_assoc|].
      split; [unfold keys in *; cbn; now f_equal|].
      split; [exact Hcan|].
      rewrite calls_app.
      change (calls [Call m ?c; Print ?o]) with [(m, c)].
      cbn [app]. split.
      * rewrite Hcalls, imap_cons. f_equal; [now rewrite <- Hctx|].
        apply imap_ext. intros j x _. cbn. now rewrite Nat.add_succ_r.
      * cbn [map fst snd]. f_equal. exact Htail.
    + rewrite length_app. cbn. lia.
    + rewrite keys_app. cbn. rewrite <- app_assoc. exact Hnd.
Qed.

(** Without any assumption on the models: the result has one entry per
    distinct model. *)
Lemma sequential_loop_keys h (ms : list str) : forall i d t r,
  sequential_loop config client i ms h d = (t, inr r) ->
  NoDup (keys d) ->
  NoDup (keys r) /\ forall m, m ∈ keys r <-> m ∈ keys d \/ m ∈ ms.
Proof.
  induction ms as [|m0 rest IH]; intros i d t r Hrun Hnd.
  - cbn in Hrun. injection Hrun as <- <-. split; [exact Hnd|].
    intros m. split; [now left | intros [H|H]; [exact H | inversion H]].
  - cbn [sequential_loop] in Hrun.
    apply bind_inr in Hrun as (t1 & d1 & t2 & Hbody & Hrest & ->).
    rewrite sequential_body_eq in Hbody. cbv zeta in Hbody.
    destruct (models config !! m0) as [mc|]; [|discriminate].
    injection Hbody as <- <-.
    apply IH in Hrest as [Hnd' Hkeys]; [|now apply setitem_NoDup].
    split; [exact Hnd'|]. intros m.
    rewrite Hkeys, keys_setitem_elem, elem_of_cons. tauto.
Qed.

(** A round over configured models runs to its end. *)
Lemma sequential_loop_total h (ms : list str) : forall i d,
  Forall (fun m => is_Some (models config !! m)) ms ->
  exists t r, sequential_loop config client i ms h d = (t, inr r).
Proof.
  induction ms as [|m rest IH]; intros i d Hcfg.
  - now exists [], d.
  - apply Forall_cons in Hcfg as [[mc Hm] Hcfg].
    cbn [sequential_loop]. rewrite sequential_body_eq. cbv zeta.
    rewrite Hm. cbn [bind].
    destruct (IH (S i) (setitem d m
      (sequential_entry client m (current_history config i h d))) Hcfg)
      as (t & r & ->).
    eauto.
Qed.



End SequentialRound.

(** ** What a round records *)

Section RecordedResponses.

Variable config : AIConfig.
Variable client : provider_client.

Lemma calls_parallel_round h (ms : list str) :
  calls (trace (_run_parallel_round config client h ms))
  = map (fun m => (m, h)) ms.
Proof.
  rewrite _run_parallel_round_eq. unfold trace. cbn [fst].
  rewrite !calls_app.
  assert (forall ws, calls (flat_map (late config) ws) = []) as ->.
  { induction ws as [|w ws IH]; [reflexivity|]. cbn.
    rewrite calls_app, IH. unfold late. now destruct (timed_out _ _ _). }
  cbn. rewrite app_nil_r.
  induction ms as [|m rest IH]; [reflexivity|]. cbn. f_equal. exact IH.
Qed.

Lemma turn_appended h responses m v :
  (m, v) ∈ responses -> assistant_turn m v ∈ append_responses h responses.
Proof.
  intros Hin. rewrite append_responses_eq, elem_of_app. right.
  unfold turns. apply list_elem_of_fmap. now exists (m, v).
Qed.

(** C7, as the code has it.  In a round over pairwise distinct models
    that runs to its end, sequential or parallel, the entry of a model
    whose provider call neither raised nor was cancelled on timeout, and
    the content of the assistant turn appended for it, is the
    concatenation of the fragments streamed for that call with leading
    and trailing whitespace removed. *)
Theorem recorded_response_is_stripped_concatenation
    (parallel : bool) h (ms : list str) t responses m ctx :
  NoDup ms ->
  (if parallel then _run_parallel_round config client h ms
   else _run_sequential_round config client h ms) = (t, inr responses) ->
  (m, ctx) ∈ calls t -> failure (client m ctx) = None -> m ∉ cancelled t ->
  getitem responses m = Some (strip (join (fragments (client m ctx))))
  /\ assistant_turn m (strip (join (fragments (client m ctx))))
       ∈ append_responses h responses.
Proof.
  intros Hnd Hrun Hcall Hok Hlive.
  enough (getitem responses m
          = Some (strip (join (fragments (client m ctx))))) as Hget.
  { split; [exact Hget|]. now apply turn_appended, getitem_Some_elem. }
  destruct parallel.
  - pose proof (calls_parallel_round h ms) as Hcalls.
    pose proof (cancelled_parallel_round config client h ms m) as Hcan.
    pose proof (parallel_round_outcome config client h ms) as Hout.
    rewrite Hrun in Hcalls, Hcan, Hout. unfold trace, outcome in *.
    cbn [fst snd] in *. injection Hout as ->.
    rewrite Hcalls in Hcall.
    apply list_elem_of_fmap in Hcall as (m' & [= <- ->] & Hm).
    apply list_elem_of_lookup in Hm as [k Hk].
    destruct (awaited_lookup_inv config
                (map (fun m => (m, task_of client m h)) ms) 0 k m
                (task_of client m h)) as [s Hw].
    { now rewrite list_lookup_fmap, Hk. }
    rewrite (parallel_responses_NoDup config client h ms Hnd).
    apply getitem_elem.
    + rewrite keys_entries, map_map. cbn. now rewrite map_id.
    + apply list_elem_of_fmap. exists (m, task_of client m h, s).
      split; [|apply list_elem_of_lookup; now exists k].
      unfold entry, parallel_entry. cbn [fst snd].
      destruct (timed_out config (task_of client m h) s) eqn:Hlate.
      * exfalso. apply Hlive, Hcan. exists (task_of client m h), s.
        split; [apply list_elem_of_lookup; now exists k | exact Hlate].
      * unfold task_of, outcome. rewrite _get_model_response_eq, Hok.
        reflexivity.
  - unfold _run_sequential_round in Hrun.
    apply sequential_loop_inr in Hrun as (tail & -> & Hkeys & _ & _ & Htail);
      [|reflexivity|exact Hnd].
    cbn [app]. apply getitem_elem; [now rewrite Hkeys|].
    rewrite Htail. apply list_elem_of_fmap. exists (m, ctx).
    split; [|exact Hcall]. unfold sequential_entry. cbn [fst snd].
    now rewrite Hok.
Qed.

End RecordedResponses.

(** ** The round table *)

Section RoundTable.

Variable config : AIConfig.
Variable client : provider_client.

Abbreviation enabled := (enabled_models (roundtable config)).
Abbreviation seed prompt := (ChatMessage_init (lit "user") prompt None).

Lemma round_keys (parallel : bool) h (ms : list str) t responses :
  NoDup ms ->
  (if parallel then _run_parallel_round config client h ms
   else _run_sequential_round config client h ms) = (t, inr responses) ->
  keys responses = ms.
Proof.
  intros Hnd Hrun. destruct parallel.
  - pose proof (parallel_round_outcome config client h ms) as Hout.
    rewrite Hrun in Hout. cbn in Hout. injection Hout as ->.
    rewrite (parallel_responses_NoDup config client h ms Hnd).
    rewrite keys_entries, map_map. cbn. now rewrite map_id.
  - unfold _run_sequential_round in Hrun.
    now apply sequential_loop_inr in Hrun as (tail & -> & Hkeys & _).
Qed.

Lemma remove_dups_NoDup (l : list str) : NoDup l -> remove_dups l = l.
Proof.
  induction 1 as [|x l Hx _ IH]; [reflexivity|].
  cbn [remove_dups].
  destruct (decide_rel elem_of x l) as [Hin|_]; [contradiction|].
  now rewrite IH.
Qed.

Lemma round_distinct_keys (parallel : bool) h (ms : list str) t responses :
  (if parallel then _run_parallel_round config client h ms
   else _run_sequential_round config client h ms) = (t, inr responses) ->
  length responses = length (remove_dups ms).
Proof.
  intros Hrun.
  assert (NoDup (keys responses) /\ forall m, m ∈ keys responses <-> m ∈ ms)
    as [Hnd Hkeys].
  { destruct parallel.
    - pose proof (parallel_round_outcome config client h ms) as Hout.
      rewrite Hrun in Hout. cbn in Hout. injection Hout as ->.
      split; [apply setitems_NoDup, NoDup_nil_2|].
      intros m. rewrite setitems_keys, keys_entries, map_map. cbn.
      rewrite map_id. split; [intros [H|H]; [inversion H | exact H] | now right].
    - unfold _run_sequential_round in Hrun.
      apply sequential_loop_keys in Hrun as [Hnd Hkeys]; [|apply NoDup_nil_2].
      split; [exact Hnd|]. intros m. rewrite Hkeys.
      split; [intros [H|H]; [inversion H | exact H] | now right]. }
  transitivity (length (keys responses)); [unfold keys; now rewrite length_map|].
  apply Permutation_length, NoDup_Permutation;
    [exact Hnd | apply NoDup_remove_dups|].
  intros m. now rewrite Hkeys, elem_of_remove_dups.
Qed.

(** The rounds that ran to their end extend the history by their turns,
    one round after the other; what holds of the result of every round
    holds of each of them. *)
Lemma rounds_loop_inr (parallel : bool) (ms : list str) (P : odict -> Prop) :
  (forall h t responses,
     (if parallel then _run_parallel_round config client h ms
      else _run_sequential_round config client h ms) = (t, inr responses) ->
     P responses) ->
  forall nums h t h',
  rounds_loop config client nums parallel ms h = (t, inr h') ->
  exists rounds : list odict,
    h' = h ++ concat (map turns rounds)
    /\ length rounds = length nums
    /\ Forall P rounds.
Proof.
  intros HP. induction nums as [|n nums IH]; intros h t h' Hrun.
  - cbn in Hrun. injection Hrun as <- <-. exists [].
    cbn. now rewrite app_nil_r.
  - cbn [rounds_loop] in Hrun.
    apply bind_inr in Hrun as (t1 & [] & t2 & _ & Hrun & ->).
    apply bind_inr in Hrun as (t3 & responses & t4 & Hround & Hrun & ->).
    apply bind_inr in Hrun as (t5 & [] & t6 & _ & Hrun & ->).
    apply IH in Hrun as (rounds & -> & Hlen & Hall).
    exists (responses :: rounds). split; [|split].
    + rewrite append_responses_eq. cbn. now rewrite <- app_assoc.
    + cbn. now rewrite Hlen.
    + constructor; [|exact Hall]. eapply HP; eassumption.
Qed.

Lemma roundtable_chat_inr prompt parallel t conv :
  roundtable_chat config client prompt parallel = (t, inr (Some conv)) ->
  (2 <= length enabled)%nat
  /\ exists t',
       rounds_loop config client
         (range (discussion_rounds (roundtable config)))
         parallel enabled [seed prompt] = (t', inr conv).
Proof.
  unfold roundtable_chat.
  destruct (Nat.ltb_spec (length enabled) 2) as [Hlt|Hge].
  - cbn. discriminate.
  - intros Hrun. split; [exact Hge|].
    do 4 apply bind_inr in Hrun as (? & [] & ? & _ & Hrun & ->).
    apply bind_inr in Hrun as (t1 & ran & t2 & Hran & Hrun & ->).
    unfold attempt in Hran. injection Hran as <- <-.
    destruct (rounds_loop _ _ _ _ _ _) as [t' [e|h']]; cbn in Hrun.
    + discriminate.
    + injection Hrun as _ ->. now exists t'.
Qed.

(** The shape of every conversation a run ends with. *)
Lemma roundtable_conversation (P : odict -> Prop) prompt (parallel : bool)
    t conv :
  (forall h t0 responses,
     (if parallel then _run_parallel_round config client h enabled
      else _run_sequential_round config client h enabled)
     = (t0, inr responses) ->
     P responses) ->
  roundtable_chat config client prompt parallel = (t, inr (Some conv)) ->
  exists rounds : list odict,
    conv = seed prompt :: concat (map turns rounds)
    /\ length rounds = Z.to_nat (discussion_rounds (roundtable config))
    /\ Forall P rounds.
Proof.
  intros HP Hrun. apply roundtable_chat_inr in Hrun as (_ & t' & Hrun).
  apply (rounds_loop_inr _ _ P HP) in Hrun as (rounds & -> & Hlen & Hall).
  exists rounds. split; [reflexivity|]. split; [|exact Hall].
  unfold range in Hlen. now rewrite length_seq in Hlen.
Qed.

Lemma speaker_turns responses :
  map speaker (turns responses) = map Some (keys responses).
Proof.
  unfold turns, keys. rewrite !map_map. apply map_ext. intros [m r].
  unfold speaker, assistant_turn, ChatMessage_init. cbn -[lit].
  apply lookup_singleton_eq.
Qed.

Lemma role_turns responses :
  map role (turns responses)
  = replicate (length responses) (lit "assistant").
Proof.
  induction responses as [|[m r] d IH]; [reflexivity|].
  cbn. f_equal. exact IH.
Qed.

Lemma rounds_speakers (ms : list str) (rounds : list odict) :
  Forall (fun responses => keys responses = ms) rounds ->
  map speaker (concat (map turns rounds))
  = concat (replicate (length rounds) (map Some ms)).
Proof.
  induction 1 as [|responses rounds Hk _ IH]; [reflexivity|].
  cbn. rewrite map_app, speaker_turns, Hk, IH. reflexivity.
Qed.

Lemma rounds_length (n : nat) (rounds : list odict) :
  Forall (fun responses => length responses = n) rounds ->
  length (concat (map turns rounds)) = (length rounds * n)%nat
  /\ map role (concat (map turns rounds))
     = replicate (length rounds * n) (lit "assistant").
Proof.
  induction 1 as [|responses rounds Hn _ [IHlen IHrole]]; [now split|].
  cbn. rewrite length_app, map_app, IHlen, IHrole, role_turns, replicate_add.
  unfold turns. now rewrite length_map, Hn.
Qed.

Lemma roundtable_chat_eq prompt parallel :
  (2 <= length enabled)%nat ->
  roundtable_chat config client prompt parallel =
    let start := [Print Headline; Print (ModelsLine enabled);
                  Print (ModeLine parallel); Print (Topic prompt)] in
    match rounds_loop config client
            (range (discussion_rounds (roundtable config)))
            parallel enabled [seed prompt] with
    | (t, inr conv) => (start ++ t, inr (Some conv))
    | (t, inl e) =>
        (start ++ t ++ [Print (RoundTableError (exc_str e))], inl e)
    end.
Proof.
  intros Hge. unfold roundtable_chat.
  destruct (Nat.ltb_spec (length enabled) 2) as [Hlt|_]; [lia|].
  destruct (rounds_loop _ _ _ _ _ _) as [t [e|conv]]; cbn;
    now rewrite ?app_nil_r.
Qed.

(** Parallel rounds never raise. *)
Lemma parallel_rounds_total (ms : list str) : forall nums h,
  exists t h', rounds_loop config client nums true ms h = (t, inr h').
Proof.
  induction nums as [|n nums IH]; intros h; [now exists [], h|].
  cbn [rounds_loop]. rewrite _run_parallel_round_eq. cbv zeta.
  set (responses := setitems _ []).
  destruct (IH (append_responses h responses)) as (t & h' & Hrec).
  unfold console_print, emit. cbn [bind].
  destruct (_ <? _); cbn [bind ret]; rewrite Hrec; eauto.
Qed.

Lemma roundtable_parallel_total prompt :
  (2 <= length enabled)%nat ->
  exists t conv,
    roundtable_chat config client prompt true = (t, inr (Some conv)).
Proof.
  intros Hge. rewrite roundtable_chat_eq by assumption. cbv zeta.
  destruct (parallel_rounds_total enabled
              (range (discussion_rounds (roundtable config)))
              [seed prompt]) as (t & conv & ->).
  eauto.
Qed.

(** Sequential rounds over configured models never raise. *)
Lemma sequential_rounds_total (ms : list str) :
  Forall (fun m => is_Some (models config !! m)) ms ->
  forall nums h,
  exists t h', rounds_loop config client nums false ms h = (t, inr h').
Proof.
  intros Hcfg. induction nums as [|n nums IH]; intros h; [now exists [], h|].
  cbn [rounds_loop]. unfold _run_sequential_round.
  destruct (sequential_loop_total config client h ms 0 [] Hcfg)
    as (t1 & responses & ->).
  destruct (IH (append_responses h responses)) as (t & h' & Hrec).
  unfold console_print, emit. cbn [bind].
  destruct (_ <? _); cbn [bind ret]; rewrite Hrec; eauto.
Qed.

Lemma roundtable_sequential_total prompt :
  (2 <= length enabled)%nat ->
  Forall (fun m => is_Some (models config !! m)) enabled ->
  exists t conv,
    roundtable_chat config client prompt false = (t, inr (Some conv)).
Proof.
  intros Hge Hcfg. rewrite roundtable_chat_eq by assumption. cbv zeta.
  destruct (sequential_rounds_total enabled Hcfg
              (range (discussion_rounds (roundtable config)))
              [seed prompt]) as (t & conv & ->).
  eauto.
Qed.

(** C1. A run of the round table that ends with a conversation, over a
    number of rounds that is not negative, ends with
    [1 + discussion_rounds * |enabled_models|] turns: the user's prompt and
    then one assistant turn per enabled model per round.  Here
    [|enabled_models|] counts the models that are enabled, which for
    pairwise distinct names is the length of the list. *)
Theorem conversation_length prompt parallel t conv :
  0 <= discussion_rounds (roundtable config) ->
  roundtable_chat config client prompt parallel = (t, inr (Some conv)) ->
  let n := length (remove_dups enabled) in
  (NoDup enabled -> n = length enabled)
  /\ Z.of_nat (length conv)
     = 1 + discussion_rounds (roundtable config) * Z.of_nat n
  /\ map role conv
     = lit "user"
       :: replicate (Z.to_nat (discussion_rounds (roundtable config)) * n)
            (lit "assistant").
Proof.
  intros Hrounds Hrun n. subst n.
  apply (roundtable_conversation
           (fun responses => length responses = length (remove_dups enabled)))
    in Hrun as (rounds & -> & Hlen & Hall).
  - destruct (rounds_length _ rounds Hall) as [Hl Hr]. split; [|split].
    + intros Hnd. f_equal. now apply remove_dups_NoDup.
    + cbn [length]. rewrite Hl, Hlen. lia.
    + cbn [map]. now rewrite Hr, Hlen.
  - intros h t0 responses. apply round_distinct_keys.
Qed.

(** C2, as the code has it.  With fewer than two enabled models the
    method prints its warning and returns; it does not raise.  No round
    runs, no provider is called, and no conversation is made. *)
Theorem too_few_models_returns prompt parallel :
  (length enabled < 2)%nat ->
  roundtable_chat config client prompt parallel
  = ([Print NeedTwoModels], inr None)
  /\ calls (trace (roundtable_chat config client prompt parallel)) = []
  /\ forall e, outcome (roundtable_chat config client prompt parallel) <> inl e.
Proof.
  intros Hlt. unfold roundtable_chat.
  destruct (Nat.ltb_spec (length enabled) 2) as [_|Hge]; [|lia].
  cbn. repeat split. discriminate.
Qed.

(** C4. In every round of a run, parallel or sequential, whatever the
    provider calls' latencies, the assistant turns appended for the round
    are tagged with the enabled models in their configured order. *)
Theorem turns_in_configured_order prompt parallel t conv :
  NoDup enabled ->
  roundtable_chat config client prompt parallel = (t, inr (Some conv)) ->
  exists rounds : list odict,
    conv = seed prompt :: concat (map turns rounds)
    /\ length rounds = Z.to_nat (discussion_rounds (roundtable config))
    /\ Forall (fun responses =>
                 map speaker (turns responses) = map Some enabled) rounds
    /\ map speaker conv
       = None :: concat (replicate
                           (Z.to_nat (discussion_rounds (roundtable config)))
                           (map Some enabled)).
Proof.
  intros Hnd Hrun.
  apply (roundtable_conversation (fun responses => keys responses = enabled))
    in Hrun as (rounds & -> & Hlen & Hall);
    [|intros h t0 responses; now apply round_keys].
  exists rounds. split; [reflexivity|]. split; [exact Hlen|]. split.
  - eapply Forall_impl; [exact Hall|]. intros responses Hk. cbn beta in Hk.
    now rewrite speaker_turns, Hk.
  - cbn [map]. rewrite (rounds_speakers enabled rounds Hall), Hlen.
    reflexivity.
Qed.

End RoundTable.

(** ** Two executions *)

Section Determinism.

Variable config : AIConfig.
Variables client1 client2 : provider_client.

(** The two clients stream the same fragments and fail the same way on
    every input. *)
Hypothesis same_responses : forall m ms,
  fragments (client1 m ms) = fragments (client2 m ms)
  /\ failure (client1 m ms) = failure (client2 m ms).

Lemma _get_model_response_ext m ms :
  _get_model_response client1 m ms = _get_model_response client2 m ms.
Proof.
  rewrite !_get_model_response_eq.
  destruct (same_responses m ms) as [-> ->]. reflexivity.
Qed.

Lemma sequential_entry_ext m ms :
  sequential_entry client1 m ms = sequential_entry client2 m ms.
Proof.
  unfold sequential_entry.
  destruct (same_responses m ms) as [-> ->]. reflexivity.
Qed.

Lemma sequential_loop_ext h (ms : list str) : forall i d,
  sequential_loop config client1 i ms h d
  = sequential_loop config client2 i ms h d.
Proof.
  induction ms as [|m rest IH]; intros i d; [reflexivity|].
  cbn [sequential_loop]. rewrite !sequential_body_eq. cbv zeta.
  rewrite sequential_entry_ext.
  destruct (models config !! m); [|reflexivity].
  cbn [bind]. now rewrite IH.
Qed.

Section SameLatency.

(** In both executions every call settles after the same time. *)
Hypothesis same_latency : forall m ms,
  latency (client1 m ms) = latency (client2 m ms).

Lemma task_of_ext m h : task_of client1 m h = task_of client2 m h.
Proof.
  unfold task_of. now rewrite same_latency, _get_model_response_ext.
Qed.

Lemma _run_parallel_round_ext h (ms : list str) :
  _run_parallel_round config client1 h ms
  = _run_parallel_round config client2 h ms.
Proof.
  rewrite !_run_parallel_round_eq. cbv zeta.
  assert (map (fun m => (m, task_of client1 m h)) ms
          = map (fun m => (m, task_of client2 m h)) ms) as ->.
  { apply map_ext. intros m. now rewrite task_of_ext. }
  reflexivity.
Qed.

End SameLatency.

Section InTime.

(** In both executions every call settles within [timeout_seconds] of
    the start of its round. *)
Hypothesis in_time : forall m ms,
  latency (client1 m ms) <= timeout_seconds (roundtable config)
  /\ latency (client2 m ms) <= timeout_seconds (roundtable config).

Lemma awaited_in_time h (ms : list str) : forall now1 now2,
  0 <= now1 -> 0 <= now2 ->
  let ws1 := awaited config (map (fun m => (m, task_of client1 m h)) ms)
               now1 in
  let ws2 := awaited config (map (fun m => (m, task_of client2 m h)) ms)
               now2 in
  flat_map (late config) ws1 = []
  /\ flat_map (late config) ws2 = []
  /\ map (entry config) ws1 = map (entry config) ws2.
Proof.
  induction ms as [|m rest IH]; intros now1 now2 H1 H2; [now cbn|].
  cbv zeta. cbn [map awaited flat_map].
  destruct (in_time m h) as [Hl1 Hl2].
  assert (timed_out config (task_of client1 m h) now1 = false) as Ht1.
  { unfold timed_out, task_of. cbn [done_at].
    apply negb_false_iff, Z.leb_le. lia. }
  assert (timed_out config (task_of client2 m h) now2 = false) as Ht2.
  { unfold timed_out, task_of. cbn [done_at].
    apply negb_false_iff, Z.leb_le. lia. }
  assert (forall (client : provider_client) now,
            0 <= now ->
            timed_out config (task_of client m h) now = false ->
            0 <= fst (wait_for m (task_of client m h)
                        (timeout_seconds (roundtable config)) now))
    as Hnext.
  { intros client now Hnow Ht. unfold wait_for.
    unfold timed_out in Ht. apply negb_false_iff in Ht. rewrite Ht.
    cbn [fst]. lia. }
  destruct (IH _ _ (Hnext client1 now1 H1 Ht1) (Hnext client2 now2 H2 Ht2))
    as (IH1 & IH2 & IHe).
  cbv zeta in IH1, IH2, IHe.
  unfold late at 1 3. cbn [fst snd]. rewrite Ht1, Ht2. cbn [app].
  split; [exact IH1|]. split; [exact IH2|]. rewrite IHe. f_equal.
  unfold entry, parallel_entry. cbn [fst snd]. rewrite Ht1, Ht2.
  unfold task_of. cbn [result]. unfold outcome.
  now rewrite _get_model_response_ext.
Qed.

Lemma _run_parallel_round_in_time h (ms : list str) :
  _run_parallel_round config client1 h ms
  = _run_parallel_round config client2 h ms.
Proof.
  rewrite !_run_parallel_round_eq. cbv zeta.
  destruct (awaited_in_time h ms 0 0) as (-> & -> & ->); [lia | lia|].
  reflexivity.
Qed.

End InTime.

Lemma rounds_loop_ext (parallel : bool) (ms : list str) :
  (parallel = true ->
   (forall m msgs, latency (client1 m msgs) = latency (client2 m msgs))
   \/ (forall m msgs,
         latency (client1 m msgs) <= timeout_seconds (roundtable config)
         /\ latency (client2 m msgs)
            <= timeout_seconds (roundtable config))) ->
  forall nums h,
    rounds_loop config client1 nums parallel ms h
    = rounds_loop config client2 nums parallel ms h.
Proof.
  intros Hlat. induction nums as [|n nums IH]; intros h; [reflexivity|].
  cbn [rounds_loop].
  assert ((if parallel then _run_parallel_round config client1 h ms
           else _run_sequential_round config client1 h ms)
          = (if parallel then _run_parallel_round config client2 h ms
             else _run_sequential_round config client2 h ms)) as ->.
  { destruct parallel.
    - destruct (Hlat eq_refl) as [Hsame|Htime].
      + now apply _run_parallel_round_ext.
      + now apply _run_parallel_round_in_time.
    - apply sequential_loop_ext. }
  destruct (if parallel then _ else _) as [t [e|responses]];
    [reflexivity|].
  unfold console_print, emit. cbn [bind].
  destruct (_ <? _); cbn [bind ret]; now rewrite IH.
Qed.

(** C8, as the code has it.  Two executions of the round table with the
    same configuration and prompt, against provider clients that answer
    the same inputs with the same fragments and failures, end with the
    same conversation, turn for turn, and leave the same trace: in
    sequential mode however long the calls take, in parallel mode when
    the calls settle after the same time in both executions, or when in
    both every call settles within [timeout_seconds].  With at
    least two enabled models, configured if the rounds are sequential,
    that common result is a conversation. *)
Theorem roundtable_chat_deterministic prompt parallel :
  (parallel = true ->
   (forall m msgs, latency (client1 m msgs) = latency (client2 m msgs))
   \/ (forall m msgs,
         latency (client1 m msgs) <= timeout_seconds (roundtable config)
         /\ latency (client2 m msgs)
            <= timeout_seconds (roundtable config))) ->
  roundtable_chat config client1 prompt parallel
  = roundtable_chat config client2 prompt parallel
  /\ ((2 <= length (enabled_models (roundtable config)))%nat ->
      (parallel = false ->
       Forall (fun m => is_Some (models config !! m))
         (enabled_models (roundtable config))) ->
      exists t conv,
        roundtable_chat config client1 prompt parallel
        = (t, inr (Some conv))
        /\ roundtable_chat config client2 prompt parallel
           = (t, inr (Some conv))).
Proof.
  intros Hlat.
  assert (roundtable_chat config client1 prompt parallel
          = roundtable_chat config client2 prompt parallel) as Heq.
  { unfold roundtable_chat.
    destruct (_ <? _)%nat; [reflexivity|].
    now rewrite (rounds_loop_ext parallel _ Hlat). }
  split; [exact Heq|]. intros Hge Hcfg. rewrite <- Heq.
  destruct parallel.
  - destruct (roundtable_parallel_total config client1 prompt Hge)
      as (t & conv & ->). eauto.
  - destruct (roundtable_sequential_total config client1 prompt Hge
                (Hcfg eq_refl)) as (t & conv & ->). eauto.
Qed.

End Determinism.

(** ** The role resolver *)

Section RoleRotation.

Import Roles.

Variable settings : RoleSettings.
Hypothesis prompting : use_role_based_prompting settings = true.
Hypothesis rotation : role_rotation settings = true.

Lemma active_role_rotating model round_index :
  active_role_for model round_index settings
  = assigned_roles settings model
      !! (round_index mod length (assigned_roles settings model))%nat.
Proof. unfold active_role_for. now rewrite prompting, rotation. Qed.

Lemma assigned_roles_nonempty model : assigned_roles settings model <> [].
Proof.
  unfold assigned_roles.
  destruct (role_assignments settings !! model) as [[|r rs]|]; easy.
Qed.

(** C9. With role-based prompting and rotation on, the role of a model
    in round [r] is element [r mod n] of its [n] assigned roles, and this
    element exists; a model assigned generator and critic plays
    generator, critic, generator, critic in rounds 0 to 3; and a model
    without assignments goes through generator, critic, refiner,
    evaluator, round after round. *)
Theorem role_rotation_cycles model round_index :
  (forall roles, role_assignments settings !! model = Some roles ->
     roles <> [] ->
     active_role_for model round_index settings
     = roles !! (round_index mod length roles)%nat
     /\ is_Some (active_role_for model round_index settings))
  /\ (role_assignments settings !! model = Some [generator; critic] ->
      map (fun r => active_role_for model r settings) [0; 1; 2; 3]%nat
      = [Some generator; Some critic; Some generator; Some critic])
  /\ (role_assignments settings !! model = None ->
      active_role_for model round_index settings
      = [generator; critic; refiner; evaluator] !! (round_index mod 4)%nat
      /\ is_Some (active_role_for model round_index settings)).
Proof.
  assert (forall roles : list DiscussionRole, roles <> [] ->
            is_Some (roles !! (round_index mod length roles)%nat)) as Hsome.
  { intros roles Hne. apply lookup_lt_is_Some, Nat.mod_upper_bound.
    destruct roles; [contradiction | discriminate]. }
  split; [|split].
  - intros roles Hroles Hne. rewrite active_role_rotating.
    unfold assigned_roles. rewrite Hroles.
    destruct roles as [|r rs]; [contradiction|]. split; [reflexivity|].
    now apply Hsome.
  - intros Hroles. cbn [map]. rewrite !active_role_rotating.
    unfold assigned_roles. rewrite Hroles. reflexivity.
  - intros Hnone. rewrite active_role_rotating.
    unfold assigned_roles. rewrite Hnone. split; [reflexivity|].
    now apply Hsome.
Qed.

End RoleRotation.

(** ** Concrete runs *)

Import Examples.

Lemma NoDup_three : NoDup [model_a; model_b; model_c].
Proof. apply (bool_decide_unpack _). vm_compute. exact I. Defined.

(** With one enabled model the method returns: it raises nothing, and
    in particular no [InsufficientModelsError]. *)
Lemma too_few_models_no_error :
  ~ exists e, outcome (roundtable_chat solo padded hello false) = inl e.
Proof. intros [e He]. vm_compute in He. discriminate. Qed.

(** The second model settles 50 seconds after it was started, with a
    timeout of 30: it is not cancelled and its entry is its response. *)
Lemma second_model_outlives_timeout :
  let r := _run_parallel_round (table true) staggered question
             [model_a; model_b; model_c] in
  timeout_seconds (roundtable (table true))
    < latency (staggered model_b question)
  /\ (model_b ∉ cancelled (trace r))
  /\ exists responses,
       outcome r = inr responses
       /\ getitem responses model_b = Some (lit "pong")
       /\ getitem responses model_b <> Some (timed_out_msg model_b).
Proof.
  cbv zeta. split; [vm_compute; reflexivity|]. split.
  - intros H. vm_compute in H.
    apply list_elem_of_singleton in H. discriminate.
  - eexists. split; [vm_compute; reflexivity|].
    split; [vm_compute; reflexivity|]. vm_compute. discriminate.
Qed.

(** The entry of a model that streamed [" re"] and [": <name>\n"] is
    not the concatenation of the two fragments. *)
Lemma response_is_not_the_concatenation :
  let r := _run_sequential_round (table true) padded question
             [model_a; model_b; model_c] in
  exists responses,
    outcome r = inr responses
    /\ (model_a, question) ∈ calls (trace r)
    /\ getitem responses model_a
       <> Some (join (fragments (padded model_a question))).
Proof.
  cbv zeta. eexists. split; [vm_compute; reflexivity|]. split.
  - vm_compute. left.
  - vm_compute. discriminate.
Qed.

(** In parallel rounds the conversation depends on how long the calls
    take: two clients that stream the same fragments and never fail, one
    settling after a second and one after the timeout, end with different
    conversations. *)
Lemma parallel_run_depends_on_timing :
  (forall m ms,
     fragments (padded m ms) = fragments (padded_late m ms)
     /\ failure (padded m ms) = failure (padded_late m ms))
  /\ (exists conv1 conv2,
        outcome (roundtable_chat (table true) padded hello true)
        = inr (Some conv1)
        /\ outcome (roundtable_chat (table true) padded_late hello true)
           = inr (Some conv2)
        /\ conv1 <> conv2
        /\ conv1 !! 1%nat
           = Some (assistant_turn model_a (lit "re: openai/gpt-4"))
        /\ conv2 !! 1%nat
           = Some (assistant_turn model_a (timed_out_msg model_a))).
Proof.
  split; [intros m ms; split; reflexivity|].
  do 2 eexists. split; [vm_compute; reflexivity|].
  split; [vm_compute; reflexivity|].
  split; [vm_compute; discriminate|].
  split; vm_compute; reflexivity.
Qed.

(** *** The theorems above at these configurations and stubs *)

Lemma get_model_config_spec_witness :
  snd (get_model_config model_a (table true)) = table true
  /\ fst (get_model_config model_a (table true))
     = inr (default_model_config openai "gpt-4").
Proof.
  destruct (get_model_config_spec (table true) model_a) as (_ & Hself & _ & Hget).
  split; [exact Hself|]. apply Hget. vm_compute. reflexivity.
Defined.

Lemma conversation_length_witness :
  exists t conv,
    roundtable_chat (table true) padded hello false = (t, inr (Some conv))
    /\ Z.of_nat (length conv) = 1 + 2 * 3.
Proof.
  assert (exists t conv,
            roundtable_chat (table true) padded hello false
            = (t, inr (Some conv))) as (t & conv & E)
    by (vm_compute; eauto).
  exists t, conv. split; [exact E|].
  apply (conversation_length (table true) padded hello false t conv);
    [discriminate | exact E].
Defined.

Lemma too_few_models_returns_witness :
  roundtable_chat solo padded hello true = ([Print NeedTwoModels], inr None).
Proof.
  apply (too_few_models_returns solo padded hello true).
  vm_compute. constructor.
Defined.


Lemma turns_in_configured_order_witness :
  exists t conv,
    roundtable_chat (table true) staggered hello true = (t, inr (Some conv))
    /\ map speaker conv
       = None :: concat (replicate 2 (map Some [model_a; model_b; model_c])).
Proof.
  assert (exists t conv,
            roundtable_chat (table true) staggered hello true
            = (t, inr (Some conv))) as (t & conv & E)
    by (vm_compute; eauto).
  exists t, conv. split; [exact E|].
  destruct (turns_in_configured_order (table true) staggered hello true
              t conv NoDup_three E) as (rounds & _ & _ & _ & Hspeakers).
  exact Hspeakers.
Defined.

Lemma parallel_round_entry_per_model_witness :
  exists responses,
    outcome (_run_parallel_round (table true) flaky question
               [model_a; model_b; model_c]) = inr responses
    /\ keys responses = [model_a; model_b; model_c]
    /\ getitem responses model_c = Some (timed_out_msg model_c)
    /\ (getitem responses model_b = Some (timed_out_msg model_b)
        \/ getitem responses model_b
           = Some (model_error_msg model_b
                     (Raise OtherException (lit "rate limit")))).
Proof.
  destruct (parallel_round_entry_per_model (table true) flaky question
              [model_a; model_b; model_c])
    as (responses & Hout & _ & _ & Hfail & Hdistinct).
  destruct (Hdistinct NoDup_three) as [Hkeys Hcancelled].
  exists responses. split; [exact Hout|]. split; [exact Hkeys|]. split.
  - apply Hcancelled. vm_compute. left.
  - apply Hfail; [vm_compute; right; left | reflexivity].
Defined.

Lemma parallel_round_deadline_witness :
  model_c ∈ cancelled (trace (_run_parallel_round (table true) staggered
                                question [model_a; model_b; model_c])).
Proof.
  destruct (parallel_round_deadline (table true) staggered question
              [model_a; model_b; model_c] 2 model_c NoDup_three)
    as (start & responses & _ & _ & _ & _ & _ & _ & Hslow);
    [reflexivity | reflexivity |].
  apply Hslow. reflexivity.
Defined.

Lemma recorded_response_is_stripped_concatenation_witness :
  exists t responses,
    _run_sequential_round (table true) padded question
      [model_a; model_b; model_c] = (t, inr responses)
    /\ getitem responses model_a = Some (lit "re: " ++ model_a).
Proof.
  assert (exists t responses,
            _run_sequential_round (table true) padded question
              [model_a; model_b; model_c] = (t, inr responses)
            /\ (model_a, question) ∈ calls t /\ cancelled t = [])
    as (t & responses & E & Hcall & Hnone).
  { vm_compute. eexists _, _. split; [reflexivity|]. split; [left|reflexivity]. }
  exists t, responses. split; [exact E|].
  refine (proj1 (recorded_response_is_stripped_concatenation (table true)
                   padded false question [model_a; model_b; model_c]
                   t responses model_a question NoDup_three E Hcall _ _)).
  - reflexivity.
  - rewrite Hnone. intros H. inversion H.
Defined.

Lemma roundtable_chat_deterministic_witness :
  (roundtable_chat (table true) padded hello true
   = roundtable_chat (table true) padded_slow hello true
   /\ exists t conv,
        roundtable_chat (table true) padded hello true
        = (t, inr (Some conv))
        /\ roundtable_chat (table true) padded_slow hello true
           = (t, inr (Some conv)))
  /\ roundtable_chat (table true) padded hello false
     = roundtable_chat (table true) padded_late hello false.
Proof.
  split.
  - destruct (roundtable_chat_deterministic (table true) padded padded_slow
                (fun m ms => conj eq_refl eq_refl) hello true) as [Heq Hconv].
    + intros _. right. intros m ms. split; vm_compute; discriminate.
    + split; [exact Heq|]. apply Hconv; [vm_compute; lia | discriminate].
  - apply (roundtable_chat_deterministic (table true) padded padded_late
             (fun m ms => conj eq_refl eq_refl) hello false).
    discriminate.
Defined.

Lemma role_rotation_cycles_witness :
  map (fun r => Roles.active_role_for model_a r rotating) [0; 1; 2; 3]%nat
  = [Some Roles.generator; Some Roles.critic;
     Some Roles.generator; Some Roles.critic].
Proof.
  destruct (role_rotation_cycles rotating eq_refl eq_refl model_a 0)
    as (_ & Hpair & _).
  apply Hpair. vm_compute. reflexivity.
Defined.


(** ** The configuration manager *)

Section ManagerFacts.

Import Manager.

Variable file : config_file.
Variable fresh : AIConfig.

Implicit Types (config : AIConfig) (name key : str).

(** *** What is written to the file *)

Lemma startswith_app s prefix : startswith (prefix ++ s) prefix = true.
Proof.
  unfold startswith. apply bool_decide_eq_true.
  now rewrite take_app_length.
Qed.

Lemma lookup_config_to_dict config name :
  d_models (_config_to_dict config) !! name
  = model_to_dict name <$> models config !! name.
Proof.
  unfold _config_to_dict. cbn [d_models]. rewrite map_lookup_imap.
  now destruct (models config !! name).
Qed.

(** X1. No key that looks like a resolved secret (it starts with [sk-] or
    [AIzaSy], or has more than 50 characters) is written to the config
    file: the entry is the key of the model only when the key does not
    look resolved, and one of three [env:] references otherwise. *)
Theorem written_api_key_not_resolved config name d key :
  d_models (_config_to_dict config) !! name = Some d ->
  d_api_key d = Some key ->
  looks_resolved key = false
  /\ (key ∈ [lit "env:OPENAI_API_KEY"; lit "env:ANTHROPIC_API_KEY";
             lit "env:GOOGLE_API_KEY"]
      \/ exists mc, models config !! name = Some mc /\ api_key mc = Some key).
Proof.
  rewrite lookup_config_to_dict.
  destruct (models config !! name) as [mc|] eqn:Hmc; cbn; [|discriminate].
  intros [= <-]. cbn [d_api_key model_to_dict]. unfold api_key_entry.
  destruct (api_key mc) as [k|] eqn:Hk; [|discriminate].
  destruct (truthy k); [|discriminate].
  destruct (looks_resolved k) eqn:Hres.
  - repeat match goal with
           | |- context [if ?b then _ else _] => destruct b
           end;
      intros Heq; try discriminate; injection Heq as <-;
      (split; [vm_compute; reflexivity|]); left;
      rewrite !elem_of_cons; auto.
  - intros [= <-]. split; [exact Hres|]. right. eauto.
Qed.

Lemma resolved_api_key_entry name (mc : ModelConfig) key :
  api_key mc = Some key -> looks_resolved key = true ->
  api_key_entry name mc =
    (if bool_decide (name = lit "openai/gpt-4") then
       Some (lit "env:OPENAI_API_KEY")
     else match provider mc with
          | openai => Some (lit "env:OPENAI_API_KEY")
          | anthropic => Some (lit "env:ANTHROPIC_API_KEY")
          | gemini =>
              if bool_decide (name = lit "anthropic/claude-3-sonnet")
              then Some (lit "env:ANTHROPIC_API_KEY")
              else Some (lit "env:GOOGLE_API_KEY")
          | ollama =>
              if bool_decide (name = lit "anthropic/claude-3-sonnet")
              then Some (lit "env:ANTHROPIC_API_KEY")
              else None
          end).
Proof.
  intros Hk Hres. unfold api_key_entry. rewrite Hk, Hres.
  assert (truthy key = true) as ->.
  { destruct key; [discriminate Hres | reflexivity]. }
  destruct (bool_decide (name = lit "openai/gpt-4")); [reflexivity|].
  destruct (provider mc);
    destruct (bool_decide (name = lit "anthropic/claude-3-sonnet"));
    reflexivity.
Qed.

(** X2. A key that looks resolved is replaced by an [env:] reference picked
    from the model's name and provider; it is dropped without a
    replacement, so that the model is written without any key, exactly for
    an [ollama] model that is not stored under one of the two default
    names. *)
Theorem resolved_api_key_dropped name (mc : ModelConfig) key :
  api_key mc = Some key -> looks_resolved key = true ->
  (api_key_entry name mc = None
   <-> provider mc = ollama
       /\ name <> lit "openai/gpt-4"
       /\ name <> lit "anthropic/claude-3-sonnet").
Proof.
  intros Hk Hres. rewrite (resolved_api_key_entry name mc key Hk Hres).
  repeat case_bool_decide; destruct (provider mc); split;
    try discriminate; try tauto; intros (? & ? & ?); congruence.
Qed.

(** *** The methods on a manager that has loaded its configuration *)

Abbreviation loaded config := {| _config := Some config |}.

Lemma load_config_loaded config :
  load_config file fresh (loaded config) = ([], inr config, loaded config).
Proof. reflexivity. Qed.

Lemma list_remove_elem name (l : list str) :
  name ∈ l ->
  exists l1 l2,
    l = l1 ++ name :: l2 /\ (name ∉ l1) /\ list_remove name l = inr (l1 ++ l2).
Proof.
  induction l as [|y l IH]; [intros H; inversion H|].
  intros Hin. cbn. destruct (decide (name = y)) as [->|Hne].
  - exists [], l. repeat split. apply not_elem_of_nil.
  - apply elem_of_cons in Hin as [->|Hin]; [contradiction|].
    destruct (IH Hin) as (l1 & l2 & -> & Hl1 & ->).
    exists (y :: l1), l2. repeat split. rewrite not_elem_of_cons. now split.
Qed.

(** X3. Adding a model to the round table: an unknown name raises
    [ValueError] and changes and writes nothing; a known name is enabled
    afterwards, behind the models that were enabled before, which keep
    their order; the enabled names stay pairwise distinct; and the file is
    written, once and with the new configuration, only when the list
    changed. *)
Theorem add_roundtable_model_spec config name :
  let '(written, result, self) :=
    add_roundtable_model file fresh name (loaded config) in
  (models config !! name = None ->
     result = inl (not_found name) /\ written = [] /\ self = loaded config)
  /\ (is_Some (models config !! name) ->
      exists enabled,
        result = inr tt
        /\ self = loaded (with_enabled_models config enabled)
        /\ (name ∈ enabled)
        /\ enabled_models (roundtable config) `prefix_of` enabled
        /\ (NoDup (enabled_models (roundtable config)) -> NoDup enabled)
        /\ written =
             if bool_decide (name ∈ enabled_models (roundtable config))
             then []
             else [Written (_config_to_dict
                              (with_enabled_models config enabled))]).
Proof.
  unfold add_roundtable_model, op_bind. rewrite load_config_loaded.
  case_bool_decide as Hin.
  - apply elem_of_dom in Hin as Hsome.
    case_bool_decide as Hen; cbn.
    + split; [intros Hnone; rewrite Hnone in Hsome; now destruct Hsome|].
      intros _. exists (enabled_models (roundtable config)).
      split; [reflexivity|]. split.
      { destruct config as [? ? []]; reflexivity. }
      split; [exact Hen|]. split; [reflexivity|]. now split.
    + split; [intros Hnone; rewrite Hnone in Hsome; now destruct Hsome|].
      intros _. exists (enabled_models (roundtable config) ++ [name]).
      split; [reflexivity|]. split; [reflexivity|].
      split; [apply elem_of_app; right; left|].
      split; [now eexists|]. split; [|reflexivity].
      intros Hnd. apply NoDup_app. split; [exact Hnd|].
      split; [|apply NoDup_singleton].
      intros x Hx Hx'. apply list_elem_of_singleton in Hx'. now subst.
  - cbn. split.
    + intros _. repeat split.
    + intros Hsome. exfalso. apply Hin. now apply elem_of_dom.
Qed.

Lemma with_enabled_models_id config :
  with_enabled_models config (enabled_models (roundtable config)) = config.
Proof. destruct config as [? ? []]; reflexivity. Qed.

(** X4. Removing a model from the round table never raises.  A name that is
    not enabled changes and writes nothing; otherwise the first occurrence
    of the name goes, the other models keep their order, the file is
    written once, and among pairwise distinct names the model is no longer
    enabled. *)
Theorem remove_roundtable_model_spec config name :
  let '(written, result, self) :=
    remove_roundtable_model file fresh name (loaded config) in
  result = inr tt
  /\ ((name ∉ enabled_models (roundtable config)) ->
      written = [] /\ self = loaded config)
  /\ ((name ∈ enabled_models (roundtable config)) ->
      exists before after,
        enabled_models (roundtable config) = before ++ name :: after
        /\ (name ∉ before)
        /\ self = loaded (with_enabled_models config (before ++ after))
        /\ written = [Written (_config_to_dict
                                 (with_enabled_models config (before ++ after)))]
        /\ (NoDup (enabled_models (roundtable config)) ->
              NoDup (before ++ after) /\ (name ∉ before ++ after))).
Proof.
  unfold remove_roundtable_model, op_bind. rewrite load_config_loaded.
  case_bool_decide as Hin.
  - destruct (list_remove_elem name _ Hin) as (l1 & l2 & Hsplit & Hl1 & ->).
    cbn. split; [reflexivity|]. split; [intros Hout; contradiction|].
    intros _. exists l1, l2. split; [exact Hsplit|]. split; [exact Hl1|].
    split; [reflexivity|]. split; [reflexivity|].
    rewrite Hsplit. intros Hnd.
    apply NoDup_app in Hnd as (Hnd1 & Hdisj & Hnd2).
    apply NoDup_cons in Hnd2 as [Hl2 Hnd2]. split.
    + apply NoDup_app. split; [exact Hnd1|]. split; [|exact Hnd2].
      intros x Hx Hx'. apply (Hdisj x Hx). now right.
    + rewrite elem_of_app. tauto.
  - cbn. split; [reflexivity|]. split; [now split|].
    intros Hin'. contradiction.
Qed.

(** X5. Adding a configured model that is not enabled and removing it again
    gives back the configuration, after two writes to the file. *)
Theorem add_then_remove config name :
  is_Some (models config !! name) ->
  name ∉ enabled_models (roundtable config) ->
  exists written1 written2 self,
    add_roundtable_model file fresh name (loaded config)
    = ([written1], inr tt, self)
    /\ remove_roundtable_model file fresh name self
       = ([written2], inr tt, loaded config).
Proof.
  intros Hsome Hout.
  set (config' := with_enabled_models config
                    (enabled_models (roundtable config) ++ [name])).
  exists (Written (_config_to_dict config')),
    (Written (_config_to_dict config)), (loaded config').
  split.
  - unfold add_roundtable_model, op_bind. rewrite load_config_loaded.
    rewrite bool_decide_eq_true_2 by now apply elem_of_dom.
    rewrite bool_decide_eq_false_2 by exact Hout. reflexivity.
  - unfold remove_roundtable_model, op_bind. rewrite load_config_loaded.
    cbn [roundtable enabled_models config' with_enabled_models].
    rewrite bool_decide_eq_true_2 by (apply elem_of_app; right; left).
    assert (list_remove name (enabled_models (roundtable config) ++ [name])
            = inr (enabled_models (roundtable config))) as ->.
    { clear Hsome config'.
      induction (enabled_models (roundtable config)) as [|y l IH]; cbn.
      - now rewrite decide_True.
      - apply not_elem_of_cons in Hout as [Hne Hout].
        rewrite decide_False by exact Hne. now rewrite IH. }
    cbn. unfold with_enabled_models. cbn.
    destruct config as [? ? [] ?]. reflexivity.
Qed.

(** X6. Setting the default model: an unknown name raises [ValueError] and
    changes and writes nothing; a known name becomes the default, nothing
    else changes, and the file is written once. *)
Theorem set_default_model_spec config name :
  let '(written, result, self) :=
    set_default_model file fresh name (loaded config) in
  (models config !! name = None ->
     result = inl (not_found name) /\ written = [] /\ self = loaded config)
  /\ (is_Some (models config !! name) ->
      exists config',
        result = inr tt /\ self = loaded config'
        /\ written = [Written (_config_to_dict config')]
        /\ default_model config' = name
        /\ is_Some (models config' !! default_model config')
        /\ models config' = models config
        /\ roundtable config' = roundtable config
        /\ ui config' = ui config).
Proof.
  unfold set_default_model, op_bind. rewrite load_config_loaded.
  case_bool_decide as Hin; cbn.
  - apply elem_of_dom in Hin as Hsome. split.
    + intros Hnone. rewrite Hnone in Hsome. now destruct Hsome.
    + intros _. eexists. repeat split. exact Hsome.
  - split; [now repeat split|].
    intros Hsome. exfalso. apply Hin. now apply elem_of_dom.
Qed.

Lemma collect_models_eq config (names : list str) :
  Forall (fun name => is_Some (models config !! name)) names ->
  exists listed,
    collect_models config names = inr listed
    /\ forall name,
         listed !! name
         = if bool_decide (name ∈ names) then models config !! name else None.
Proof.
  induction 1 as [|n names [mc Hn] _ (listed & IH & Hl)].
  - exists ∅. split; [reflexivity|]. intros name.
    rewrite bool_decide_eq_false_2 by apply not_elem_of_nil.
    apply lookup_empty.
  - cbn. unfold get_model_config. rewrite Hn, IH. cbn.
    eexists. split; [reflexivity|]. intros name.
    rewrite lookup_insert, Hl. destruct (decide (n = name)) as [->|Hne].
    + rewrite bool_decide_eq_true_2 by left. now rewrite Hn.
    + repeat case_bool_decide; try reflexivity;
        rewrite elem_of_cons in *; exfalso; intuition congruence.
Qed.

(** X7. Listing the models never raises, writes nothing and returns the
    configured models, each under its name. *)
Theorem list_models_spec config :
  list_models file fresh (loaded config)
  = ([], inr (models config), loaded config).
Proof.
  unfold list_models, op_bind. rewrite load_config_loaded.
  destruct (collect_models_eq config (map fst (map_to_list (models config))))
    as (listed & -> & Hl).
  - apply Forall_forall. intros name Hin.
    apply list_elem_of_fmap in Hin as ([n mc] & -> & Hin).
    apply elem_of_map_to_list in Hin. now exists mc.
  - cbn. do 2 f_equal. f_equal. apply map_eq. intros name. rewrite Hl.
    case_bool_decide as Hin; [reflexivity|].
    destruct (models config !! name) as [mc|] eqn:Hn; [|reflexivity].
    exfalso. apply Hin. apply list_elem_of_fmap. exists (name, mc).
    split; [reflexivity|]. now apply elem_of_map_to_list.
Qed.

(** *** The first load *)

Abbreviation unloaded := {| _config := None |}.

Lemma load_config_unloaded :
  load_config file fresh unloaded
  = (load_effects file fresh, inr (initial_config file fresh),
     loaded (initial_config file fresh)).
Proof.
  unfold load_config, load_effects, initial_config, op_bind.
  destruct file; reflexivity.
Qed.

Lemma aftermath_unloaded A (f : AIConfig -> Op A) :
  let config := initial_config file fresh in
  aftermath (op_bind (load_config file fresh) f) unloaded
  = (load_effects file fresh ++ fst (aftermath (f config) (loaded config)),
     snd (aftermath (f config) (loaded config))).
Proof.
  cbv zeta. unfold aftermath, op_bind. rewrite load_config_unloaded.
  now destruct (f _ _) as [[w r] s].
Qed.

Lemma aftermath_loaded A (f : AIConfig -> Op A) config :
  aftermath (op_bind (load_config file fresh) f) (loaded config)
  = aftermath (f config) (loaded config).
Proof.
  unfold aftermath, op_bind. rewrite load_config_loaded.
  now destruct (f _ _) as [[w r] s].
Qed.

(** Every method leaves a loaded manager loaded. *)
Lemma run_command_loaded (c : command) config :
  exists config', snd (run_command file fresh c (loaded config)) = loaded config'.
Proof.
  destruct c; cbn [run_command];
    unfold set_default_model, add_roundtable_model, remove_roundtable_model,
      list_models;
    rewrite aftermath_loaded; unfold aftermath.
  - case_bool_decide; cbn; eauto.
  - repeat case_bool_decide; cbn; eauto.
  - case_bool_decide; [|cbn; eauto].
    destruct (list_remove _ _); cbn; eauto.
  - destruct (collect_models _ _); cbn; eauto.
Qed.

(** X8. The file is read once.  A manager that has not loaded yet first
    writes the defaults to a missing file, or warns of a file it cannot
    load (and leaves that file alone), and then does what a manager loaded
    with the file's configuration, or with the defaults, does; afterwards
    it is loaded, and a further [load_config] has no effect. *)
Theorem first_load (c : command) :
  let config := initial_config file fresh in
  run_command file fresh c unloaded
  = (load_effects file fresh
       ++ fst (run_command file fresh c (loaded config)),
     snd (run_command file fresh c (loaded config)))
  /\ (exists config',
        snd (run_command file fresh c unloaded) = loaded config'
        /\ load_config file fresh (loaded config')
           = ([], inr config', loaded config')).
Proof.
  cbv zeta.
  assert (run_command file fresh c unloaded
          = (load_effects file fresh
               ++ fst (run_command file fresh c
                         (loaded (initial_config file fresh))),
             snd (run_command file fresh c
                    (loaded (initial_config file fresh))))) as Heq.
  { destruct c; cbn [run_command];
      unfold set_default_model, add_roundtable_model,
        remove_roundtable_model, list_models;
      now rewrite aftermath_unloaded, aftermath_loaded. }
  split; [exact Heq|]. rewrite Heq. cbn [snd].
  destruct (run_command_loaded c (initial_config file fresh)) as [config' ->].
  exists config'. split; [reflexivity | apply load_config_loaded].
Qed.

End ManagerFacts.


(** ** When the round table raises *)

Section RoundTableErrors.

Variable config : AIConfig.
Variable client : provider_client.

Abbreviation enabled := (enabled_models (roundtable config)).
Abbreviation unconfigured := (fun m : str => models config !! m = None).
Abbreviation seed prompt := (ChatMessage_init (lit "user") prompt None).

(** A sequential round either runs to its end or stops, with the
    [ValueError] of [get_model_config], at its first model without a
    configuration. *)
Lemma sequential_loop_cases h (ms : list str) : forall i d,
  (Forall (fun m => is_Some (models config !! m)) ms
   /\ exists t r, sequential_loop config client i ms h d = (t, inr r))
  \/ (exists before m after t,
        ms = before ++ m :: after
        /\ Forall (fun m => is_Some (models config !! m)) before
        /\ unconfigured m
        /\ sequential_loop config client i ms h d = (t, inl (not_found m))
        /\ map fst (calls t) = before ++ [m]).
Proof.
  induction ms as [|m rest IH]; intros i d.
  - left. split; [constructor | now exists [], d].
  - cbn [sequential_loop]. rewrite sequential_body_eq. cbv zeta.
    destruct (models config !! m) as [mc|] eqn:Hm.
    + cbn [bind].
      destruct (IH (S i) (setitem d m
        (sequential_entry client m (current_history config i h d))))
        as [[Hall (t & r & ->)]|(before & m' & after & t & -> & Hb & Hm' & -> & Hc)].
      * left. split; [constructor; eauto | eauto].
      * right. exists (m :: before), m', after. eexists.
        split; [reflexivity|]. split; [constructor; eauto|].
        split; [exact Hm'|]. split; [reflexivity|].
        change (calls (?a :: ?b :: t)) with (calls ([a; b] ++ t)).
        rewrite calls_app. cbn. now rewrite Hc.
    + right. exists [], m, rest. eexists.
      split; [reflexivity|]. split; [constructor|]. split; [exact Hm|].
      split; reflexivity.
Qed.

Lemma rounds_loop_sequential_raises (ms : list str) n nums h :
  Exists unconfigured ms ->
  exists t m,
    rounds_loop config client (n :: nums) false ms h = (t, inl (not_found m))
    /\ (m ∈ ms) /\ unconfigured m.
Proof.
  intros Hex. cbn [rounds_loop]. unfold _run_sequential_round.
  destruct (sequential_loop_cases h ms 0 [])
    as [[Hall _]|(before & m & after & t & -> & _ & Hm & -> & _)].
  - exfalso. apply Exists_exists in Hex as (m & Hin & Hm).
    rewrite Forall_forall in Hall. destruct (Hall m Hin) as [mc Hmc].
    congruence.
  - cbn. eexists _, m. split; [reflexivity|].
    split; [|exact Hm]. apply elem_of_app. right. left.
Qed.

Lemma rounds_loop_raises_inv parallel (ms : list str) : forall nums h t e,
  rounds_loop config client nums parallel ms h = (t, inl e) ->
  parallel = false
  /\ exists m, e = not_found m /\ (m ∈ ms) /\ unconfigured m.
Proof.
  induction nums as [|n nums IH]; intros h t e Hrun; [discriminate|].
  cbn [rounds_loop] in Hrun. unfold console_print, emit in Hrun.
  cbn [bind] in Hrun.
  destruct parallel.
  - rewrite _run_parallel_round_eq in Hrun. cbv zeta in Hrun.
    cbn [bind] in Hrun.
    destruct (_ <? _) in Hrun; cbn [bind ret] in Hrun;
      destruct (rounds_loop _ _ _ _ _ _) as [t' [e'|h']] eqn:Hrec;
      try discriminate;
      injection Hrun as _ <-; now apply IH in Hrec as [? _].
  - unfold _run_sequential_round in Hrun.
    destruct (sequential_loop_cases h ms 0 [])
      as [[Hall (t1 & r & Hseq)]|(before & m & after & t1 & -> & _ & Hm & Hseq & _)];
      rewrite Hseq in Hrun; cbn [bind] in Hrun.
    + destruct (_ <? _) in Hrun; cbn [bind ret] in Hrun;
        destruct (rounds_loop _ _ _ _ _ _) as [t' [e'|h']] eqn:Hrec;
        try discriminate;
        injection Hrun as _ <-; now apply IH in Hrec.
    + injection Hrun as _ <-. split; [reflexivity|].
      exists m. split; [reflexivity|]. split; [|exact Hm].
      apply elem_of_app. right. left.
Qed.

Lemma roundtable_chat_returns prompt parallel :
  Forall (fun m => is_Some (models config !! m)) enabled ->
  exists t r, roundtable_chat config client prompt parallel = (t, inr r).
Proof.
  intros Hcfg. destruct (Nat.lt_ge_cases (length enabled) 2) as [Hlt|Hge].
  - unfold roundtable_chat.
    destruct (Nat.ltb_spec (length enabled) 2); [|lia].
    cbn. eauto.
  - destruct parallel.
    + destruct (roundtable_parallel_total config client prompt Hge)
        as (t & conv & ->). eauto.
    + destruct (roundtable_sequential_total config client prompt Hge Hcfg)
        as (t & conv & ->). eauto.
Qed.

(** X9. [roundtable_chat] raises in one situation only: a sequential run of
    at least one round over at least two enabled models of which one has
    no configuration.  The exception is then the [ValueError] of
    [get_model_config] for such a model, raised when its response is to be
    shown, and the last thing printed is the round-table error. *)
Theorem roundtable_chat_raises prompt parallel :
  ((exists t e, roundtable_chat config client prompt parallel = (t, inl e))
   <-> parallel = false
       /\ (2 <= length enabled)%nat
       /\ 0 < discussion_rounds (roundtable config)
       /\ Exists unconfigured enabled)
  /\ (forall t e,
        roundtable_chat config client prompt parallel = (t, inl e) ->
        (exists m, e = not_found m /\ (m ∈ enabled) /\ unconfigured m)
        /\ last t = Some (Print (RoundTableError (exc_str e)))).
Proof.
  assert (forall t e,
            roundtable_chat config client prompt parallel = (t, inl e) ->
            (2 <= length enabled)%nat
            /\ exists t',
                 rounds_loop config client
                   (range (discussion_rounds (roundtable config)))
                   parallel enabled [seed prompt] = (t', inl e)
                 /\ last t = Some (Print (RoundTableError (exc_str e))))
    as Hinv.
  { intros t e Hrun.
    destruct (Nat.lt_ge_cases (length enabled) 2) as [Hlt|Hge].
    - unfold roundtable_chat in Hrun.
      destruct (Nat.ltb_spec (length enabled) 2); [discriminate | lia].
    - split; [exact Hge|].
      rewrite roundtable_chat_eq in Hrun by exact Hge. cbv zeta in Hrun.
      destruct (rounds_loop _ _ _ _ _ _) as [t' [e'|conv]];
        [|discriminate].
      injection Hrun as <- <-. exists t'. split; [reflexivity|].
      exact (last_snoc (Print (RoundTableError (exc_str e')))
               ([Print Headline; Print (ModelsLine enabled);
                 Print (ModeLine parallel); Print (Topic prompt)] ++ t')). }
  split.
  - split.
    + intros (t & e & Hrun). destruct (Hinv t e Hrun) as (Hge & t' & Hloop & _).
      destruct (rounds_loop_raises_inv _ _ _ _ _ _ Hloop)
        as (Hpar & m & _ & Hin & Hm).
      split; [exact Hpar|]. split; [exact Hge|]. split.
      * destruct (Z.lt_ge_cases 0 (discussion_rounds (roundtable config)))
          as [Hpos|Hneg]; [exact Hpos|].
        unfold range in Hloop.
        replace (Z.to_nat (discussion_rounds (roundtable config))) with 0%nat
          in Hloop by lia.
        discriminate.
      * apply Exists_exists. eauto.
    + intros (-> & Hge & Hpos & Hex).
      rewrite roundtable_chat_eq by exact Hge. cbv zeta.
      unfold range.
      destruct (Z.to_nat (discussion_rounds (roundtable config))) as [|k]
        eqn:Hk; [lia|].
      cbn [seq].
      destruct (rounds_loop_sequential_raises enabled 0%nat (seq 1 k)
                  [seed prompt] Hex) as (t & m & -> & _).
      eauto.
  - intros t e Hrun. destruct (Hinv t e Hrun) as (_ & t' & Hloop & Hlast).
    split; [|exact Hlast].
    now destruct (rounds_loop_raises_inv _ _ _ _ _ _ Hloop) as [_ ?].
Qed.

End RoundTableErrors.


(** ** Managed configurations and the round table *)

Section ManagedRoundTable.

Import Manager.

Variable file : config_file.
Variable fresh : AIConfig.

(** X10. Every method of the manager keeps the enabled models pairwise
    distinct and configured, and leaves the configured models as they
    are; so on a configuration that was only ever changed through the
    manager the round table does not raise, in either mode. *)
Theorem run_command_consistent (c : command) config :
  consistent config ->
  exists config',
    snd (run_command file fresh c {| _config := Some config |})
    = {| _config := Some config' |}
    /\ consistent config'
    /\ models config' = models config
    /\ forall client prompt parallel,
         exists t r,
           roundtable_chat config' client prompt parallel = (t, inr r).
Proof.
  intros [Hnd Hcfg].
  enough (exists config',
            snd (run_command file fresh c {| _config := Some config |})
            = {| _config := Some config' |}
            /\ consistent config' /\ models config' = models config)
    as (config' & Hs & Hc & Hm).
  { exists config'. repeat split; try assumption; try apply Hc.
    intros client prompt parallel.
    apply roundtable_chat_returns, Hc. }
  destruct c; cbn [run_command];
    unfold set_default_model, add_roundtable_model, remove_roundtable_model,
      list_models;
    rewrite aftermath_loaded; unfold aftermath.
  - case_bool_decide; cbn; eexists; (split; [reflexivity|]);
      now repeat split.
  - case_bool_decide as Hin; [|cbn; eexists; split; [reflexivity|];
                                now repeat split].
    case_bool_decide as Hen; cbn; eexists; (split; [reflexivity|]);
      [now repeat split|].
    split; [|reflexivity]. split; cbn.
    + apply NoDup_app. split; [exact Hnd|].
      split; [|apply NoDup_singleton].
      intros x Hx Hx'. apply list_elem_of_singleton in Hx'. now subst.
    + apply Forall_app. split; [exact Hcfg|].
      constructor; [|constructor]. now apply elem_of_dom.
  - case_bool_decide as Hin; [|cbn; eexists; split; [reflexivity|];
                                now repeat split].
    destruct (list_remove_elem model_name _ Hin)
      as (l1 & l2 & Hsplit & Hl1 & ->).
    cbn. eexists. split; [reflexivity|]. split; [|reflexivity].
    rewrite Hsplit in Hnd, Hcfg. split; cbn.
    + apply NoDup_app in Hnd as (Hnd1 & Hdisj & Hnd2).
      apply NoDup_cons in Hnd2 as [_ Hnd2].
      apply NoDup_app. split; [exact Hnd1|]. split; [|exact Hnd2].
      intros x Hx Hx'. apply (Hdisj x Hx). now right.
    + apply Forall_app in Hcfg as [H1 H2].
      apply Forall_cons in H2 as [_ H2]. now apply Forall_app.
  - destruct (collect_models _ _); cbn; eexists; (split; [reflexivity|]);
      now repeat split.
Qed.

End ManagedRoundTable.


(** ** The default models *)

Section DefaultModels.

Import Defaults.

Variable V : Type.
Variable dict_value : list (str * str) -> V.

Lemma lookup_setdefault (name : str) (x0 : V) (v : gmap str V) (k : str) :
  setdefault V name x0 v !! k
  = match v !! k with
    | Some x => Some x
    | None => if bool_decide (k = name) then Some x0 else None
    end.
Proof.
  unfold setdefault. destruct (v !! name) as [x|] eqn:Hn.
  - destruct (v !! k) eqn:Hk; [reflexivity|].
    case_bool_decide; [congruence | reflexivity].
  - rewrite lookup_insert. destruct (decide (name = k)) as [<-|Hne].
    + rewrite Hn. now rewrite bool_decide_eq_true_2.
    + destruct (v !! k); [reflexivity|].
      rewrite bool_decide_eq_false_2; [reflexivity | congruence].
Qed.

Lemma lookup_ensure_default_models (v : option (gmap str V)) k :
  ensure_default_models V dict_value v !! k
  = match default ∅ v !! k with
    | Some x => Some x
    | None => default_entry V dict_value k
    end.
Proof.
  unfold ensure_default_models, default_entry.
  assert ((match v with
           | Some v0 => if bool_decide (v0 = ∅) then ∅ else v0
           | None => ∅
           end) = default ∅ v) as ->.
  { destruct v as [v|]; [|reflexivity]. cbn. now case_bool_decide. }
  rewrite !lookup_setdefault.
  destruct (default ∅ v !! k); [reflexivity|].
  repeat case_bool_decide; try reflexivity; subst; discriminate.
Qed.

(** X11. The validator leaves every entry it is given as it is, also under a
    default's name, adds the default of each of the three names that has no
    entry, and nothing else; applied to its own result it changes
    nothing. *)
Theorem ensure_default_models_spec (v : option (gmap str V)) :
  let result := ensure_default_models V dict_value v in
  (forall k x, default ∅ v !! k = Some x -> result !! k = Some x)
  /\ (forall k, default ∅ v !! k = None ->
        result !! k = default_entry V dict_value k)
  /\ dom result
     = dom (default ∅ v)
       ∪ {[ lit "openai/gpt-4"; lit "anthropic/claude-3-sonnet";
            lit "ollama/llama2" ]}
  /\ ensure_default_models V dict_value (Some result) = result.
Proof.
  cbv zeta. split; [|split; [|split]].
  - intros k x Hk. now rewrite lookup_ensure_default_models, Hk.
  - intros k Hk. now rewrite lookup_ensure_default_models, Hk.
  - apply set_eq. intros k.
    rewrite elem_of_dom, lookup_ensure_default_models, elem_of_union,
      elem_of_dom.
    destruct (default ∅ v !! k) as [x|].
    { split; [left|]; eauto. }
    unfold default_entry. rewrite !elem_of_union, !elem_of_singleton.
    split.
    + intros Hs. right. repeat case_bool_decide; try tauto.
      now destruct Hs as [? [=]].
    + intros [[? [=]]|Hk]. repeat case_bool_decide; eauto.
      exfalso. tauto.
  - apply map_eq. intros k. rewrite !lookup_ensure_default_models. cbn.
    rewrite lookup_ensure_default_models.
    destruct (default ∅ v !! k); [reflexivity|].
    now destruct (default_entry V dict_value k).
Qed.

End DefaultModels.


(** ** The LiteLLM provider under the engine *)

Section LiteLLMFacts.

Import LiteLLM.

Variable acompletion : request -> completion.
Variable config : ModelConfig.

Lemma join_from (chunks : list str) : forall s,
  fold_left (fun response chunk => response ++ chunk) chunks s
  = s ++ join chunks.
Proof.
  unfold join. induction chunks as [|c chunks IH]; intros s; cbn.
  - now rewrite app_nil_r.
  - rewrite IH, (IH c). now rewrite app_assoc.
Qed.

Lemma join_app (l1 l2 : list str) : join (l1 ++ l2) = join l1 ++ join l2.
Proof. unfold join at 1. rewrite fold_left_app. apply join_from. Qed.

Lemma yielded_nonempty chunk : Forall (fun f => f <> []) (yielded chunk).
Proof.
  unfold yielded. destruct (choices chunk) as [[|c ?]|]; try constructor.
  destruct (delta_content c) as [[|ch text]|]; repeat constructor.
  discriminate.
Qed.

(** X12. A failure of the LiteLLM call never reaches the engine as an
    exception.  [chat_stream] yields no empty fragment and never raises;
    when [acompletion] raises, or its stream breaks, the text streamed so
    far is followed by ["Error: "] and the message, and
    [_get_model_response] returns that text, stripped, as the model's
    response. *)
Theorem litellm_failure_is_text (client : provider_client) model_name messages :
  fragments (client model_name messages)
  = fst (chat_stream acompletion config messages) ->
  failure (client model_name messages)
  = snd (chat_stream acompletion config messages) ->
  let streamed := fragments (client model_name messages) in
  Forall (fun f => f <> []) streamed
  /\ outcome (_get_model_response client model_name messages)
     = inr (strip (join streamed))
  /\ join streamed
     = match acompletion (chat_request config messages) with
       | Refused e => lit "Error: " ++ exc_str e
       | Streaming chunks (Some e) =>
           join (flat_map yielded chunks) ++ lit "Error: " ++ exc_str e
       | Streaming chunks None => join (flat_map yielded chunks)
       end.
Proof.
  intros Hfr Hfail. cbv zeta. rewrite _get_model_response_eq, Hfail, Hfr.
  unfold outcome, chat_stream, chat_stream_body.
  assert (forall chunks, Forall (fun f : str => f <> [])
                           (flat_map yielded chunks)) as Hne.
  { induction chunks as [|c chunks IH]; [constructor|].
    cbn. apply Forall_app. split; [apply yielded_nonempty | exact IH]. }
  destruct (acompletion _) as [e|chunks [e|]]; cbn [fst snd].
  - split; [repeat constructor; discriminate|]. split; [reflexivity|].
    unfold join. cbn. reflexivity.
  - split.
    + apply Forall_app. split; [apply Hne|].
      repeat constructor. discriminate.
    + split; [reflexivity|]. rewrite join_app. f_equal.
  - split; [apply Hne|]. split; reflexivity.
Qed.

End LiteLLMFacts.

(** ** A chat with one model *)

Section SingleChatFacts.

Import SingleChat.

Variable config : AIConfig.
Variable get_provider : provider_factory.
Variable markup_error : markup.

Lemma join_cons (c : str) (chunks : list str) :
  join (c :: chunks) = c ++ join chunks.
Proof. unfold join at 1. cbn [fold_left app]. apply join_from. Qed.

Lemma stream_response_eq model_name (chunks : list str) : forall response,
  stream_response model_name response chunks
  = (map (fun k => Update (response ++ join (take (S k) chunks)) model_name)
       (seq 0 (length chunks)),
     response ++ join chunks).
Proof.
  induction chunks as [|c chunks IH]; intros response.
  - cbn. unfold join. cbn. now rewrite app_nil_r.
  - cbn [stream_response]. rewrite IH. cbn [length seq map].
    rewrite <- seq_shift, map_map.
    rewrite (join_cons c chunks), app_assoc.
    rewrite (map_ext
               (fun k => Update (response ++ join (take (S (S k)) (c :: chunks)))
                           model_name)
               (fun k => Update ((response ++ c) ++ join (take (S k) chunks))
                           model_name)); [reflexivity|].
    intros k.
    change (take (S (S k)) (c :: chunks)) with (c :: take (S k) chunks).
    now rewrite join_cons, app_assoc.
Qed.

Lemma updates_app s1 s2 : updates (s1 ++ s2) = updates s1 ++ updates s2.
Proof. unfold updates. apply omap_app. Qed.

Lemma sent_app s1 s2 : sent (s1 ++ s2) = sent s1 ++ sent s2.
Proof. unfold sent. apply omap_app. Qed.

Lemma updates_map model_name (texts : list str) :
  updates (map (fun r => Update r model_name) texts) = texts.
Proof. induction texts as [|r texts IH]; [reflexivity|]. cbn. now f_equal. Qed.

Lemma sent_map_update model_name (texts : list str) :
  sent (map (fun r => Update r model_name) texts) = [].
Proof. induction texts as [|r texts IH]; [reflexivity|]. exact IH. Qed.

Abbreviation question prompt := [ChatMessage_init (lit "user") prompt None].

Abbreviation chat_with := (single_chat config get_provider markup_error).
Abbreviation reported := (report markup_error).

Lemma single_chat_eq prompt model_name :
  chat_with prompt model_name =
    match get_provider model_name with
    | inl e => reported model_name e []
    | inr provider =>
        match models config !! model_name with
        | None => reported model_name (not_found model_name) []
        | Some mc =>
            match provider (question prompt) with
            | (chunks, Some e) =>
                reported model_name e (streamed model_name mc prompt chunks)
            | (chunks, None) =>
                (streamed model_name mc prompt chunks ++ [Finalized], inr tt)
            end
        end
    end.
Proof.
  unfold single_chat, single_chat_body, get_model_config, streamed.
  destruct (get_provider model_name) as [e|provider]; [reflexivity|].
  destruct (models config !! model_name) as [mc|]; [|reflexivity].
  cbn [fst]. destruct (provider _) as [chunks broken].
  rewrite stream_response_eq, map_map. cbn [app].
  destruct broken; reflexivity.
Qed.

(** The handler raises, and adds at most the error line. *)
Lemma report_cases model_name e shown :
  (markup_error (error_with_markup model_name e) = None
   /\ reported model_name e shown
      = (shown ++ [ErrorWith model_name (exc_str e)], inl e))
  \/ (exists e', markup_error (error_with_markup model_name e) = Some e'
                 /\ reported model_name e shown = (shown, inl e')).
Proof.
  unfold report. destruct (markup_error _) as [e'|]; [right | left]; eauto.
Qed.

Lemma updates_report model_name e shown :
  updates (fst (reported model_name e shown)) = updates shown.
Proof.
  destruct (report_cases model_name e shown) as [[_ ->]|(e' & _ & ->)];
    cbn [fst]; [|reflexivity].
  rewrite updates_app. apply app_nil_r.
Qed.

Lemma sent_report model_name e shown :
  sent (fst (reported model_name e shown)) = sent shown.
Proof.
  destruct (report_cases model_name e shown) as [[_ ->]|(e' & _ & ->)];
    cbn [fst]; [|reflexivity].
  rewrite sent_app. apply app_nil_r.
Qed.

Lemma report_not_finalized model_name e shown :
  Finalized ∉ shown -> Finalized ∉ fst (reported model_name e shown).
Proof.
  intros Hnf.
  destruct (report_cases model_name e shown) as [[_ ->]|(e' & _ & ->)];
    cbn [fst]; [|exact Hnf].
  intros H. apply elem_of_app in H as [H|H]; [now apply Hnf|].
  apply list_elem_of_singleton in H. discriminate.
Qed.

Lemma report_raises model_name e shown :
  exists e', snd (reported model_name e shown) = inl e'
             /\ (e' = e \/ markup_error (error_with_markup model_name e)
                           = Some e').
Proof.
  destruct (report_cases model_name e shown) as [[_ ->]|(e' & He & ->)];
    cbn [snd]; eauto.
Qed.

Lemma updates_streamed model_name mc prompt chunks :
  updates (streamed model_name mc prompt chunks)
  = map (fun k => join (take (S k) chunks)) (seq 0 (length chunks)).
Proof.
  unfold streamed. rewrite updates_app, updates_map. reflexivity.
Qed.

Lemma sent_streamed model_name mc prompt chunks :
  sent (streamed model_name mc prompt chunks) = [question prompt].
Proof.
  unfold streamed. rewrite sent_app, sent_map_update. reflexivity.
Qed.

Lemma streamed_not_finalized model_name mc prompt chunks :
  Finalized ∉ streamed model_name mc prompt chunks.
Proof.
  intros H. unfold streamed in H. apply elem_of_app in H as [H|H].
  - rewrite !elem_of_cons in H. destruct H as [H|[H|H]];
      [discriminate | discriminate | inversion H].
  - apply list_elem_of_fmap in H as (r & [=] & _).
Qed.

Lemma streamed_no_error model_name mc prompt chunks m msg :
  ErrorWith m msg ∉ streamed model_name mc prompt chunks.
Proof.
  intros H. unfold streamed in H. apply elem_of_app in H as [H|H].
  - rewrite !elem_of_cons in H. destruct H as [H|[H|H]];
      [discriminate | discriminate | inversion H].
  - apply list_elem_of_fmap in H as (r & [=] & _).
Qed.

(** X13. While a response streams in, the display is updated once per chunk,
    each time with everything received so far: the [k]-th update shows the
    concatenation of the first [k] chunks, not stripped, whether or not
    the stream breaks afterwards. *)
Theorem single_chat_updates prompt model_name provider (mc : ModelConfig)
    chunks broken :
  get_provider model_name = inr provider ->
  models config !! model_name = Some mc ->
  provider (question prompt) = (chunks, broken) ->
  updates (fst (chat_with prompt model_name))
  = map (fun k => join (take (S k) chunks)) (seq 0 (length chunks)).
Proof.
  intros Hp Hm Hs. rewrite single_chat_eq, Hp, Hm, Hs.
  destruct broken; [now rewrite updates_report, updates_streamed|].
  cbn [fst]. rewrite updates_app, updates_streamed. apply app_nil_r.
Qed.

Lemma single_chat_sent prompt model_name :
  sent (fst (chat_with prompt model_name)) = []
  \/ sent (fst (chat_with prompt model_name)) = [question prompt].
Proof.
  rewrite single_chat_eq.
  destruct (get_provider model_name) as [e0|provider];
    [left; now rewrite sent_report|].
  destruct (models config !! model_name) as [mc|];
    [|left; now rewrite sent_report].
  destruct (provider (question prompt)) as [chunks [e0|]]; right.
  - now rewrite sent_report, sent_streamed.
  - cbn [fst]. rewrite sent_app, sent_streamed. reflexivity.
Qed.

(** How a chat ends, for the session: it returns after the question and
    the finalisation, in this order and once each, or it raises without
    a finalisation. *)
Lemma single_chat_cases prompt model_name :
  (exists before,
     chat_with prompt model_name
     = (before ++ [Finalized], inr tt)
     /\ sent before = [question prompt]
     /\ (Finalized ∉ before))
  \/ (exists steps e,
        chat_with prompt model_name = (steps, inl e)
        /\ (Finalized ∉ steps)).
Proof.
  rewrite single_chat_eq.
  destruct (get_provider model_name) as [e0|provider].
  { right. destruct (report_raises model_name e0 []) as (e' & He & _).
    exists (fst (reported model_name e0 [])), e'. split.
    - rewrite <- He. now destruct (reported _ _ _).
    - apply report_not_finalized, not_elem_of_nil. }
  destruct (models config !! model_name) as [mc|].
  2:{ right.
      destruct (report_raises model_name (not_found model_name) [])
        as (e' & He & _).
      exists (fst (reported model_name (not_found model_name) [])), e'.
      split.
      - rewrite <- He. now destruct (reported _ _ _).
      - apply report_not_finalized, not_elem_of_nil. }
  destruct (provider (question prompt)) as [chunks [e0|]].
  - right.
    destruct (report_raises model_name e0
                (streamed model_name mc prompt chunks)) as (e' & He & _).
    exists (fst (reported model_name e0
                   (streamed model_name mc prompt chunks))), e'.
    split.
    + rewrite <- He. now destruct (reported _ _ _).
    + apply report_not_finalized, streamed_not_finalized.
  - left. exists (streamed model_name mc prompt chunks).
    split; [reflexivity|]. split; [apply sent_streamed|].
    apply streamed_not_finalized.
Qed.

(** X14. The [try] block of [single_chat] raises exactly when the
    factory raises, the model has no configuration, or the stream breaks.
    The handler then prints the error line last and raises that exception
    again; when the print of the line raises, because of the exception's
    message, that is the exception that leaves the method, and no error
    line is shown.  The display is finalised, last, exactly when the
    method returns.  Either way the provider is given at most one message
    list, and it holds the prompt as a single user message: no earlier
    turn is sent. *)
Theorem single_chat_outcome prompt model_name :
  let '(steps, result) := chat_with prompt model_name in
  (forall e,
     result = inl e <->
     exists e0,
       (get_provider model_name = inl e0
        \/ exists provider,
             get_provider model_name = inr provider
             /\ (models config !! model_name = None
                 /\ e0 = not_found model_name
                 \/ is_Some (models config !! model_name)
                    /\ snd (provider (question prompt)) = Some e0))
       /\ match markup_error (error_with_markup model_name e0) with
          | None =>
              e = e0
              /\ last steps = Some (ErrorWith model_name (exc_str e0))
          | Some e' => e = e' /\ forall m msg, ErrorWith m msg ∉ steps
          end)
  /\ (forall e, result = inl e -> Finalized ∉ steps)
  /\ (result = inr tt -> last steps = Some Finalized)
  /\ (sent steps = [] \/ sent steps = [question prompt]).
Proof.
  assert (forall e0 shown,
            (forall m msg, ErrorWith m msg ∉ shown) ->
            forall e,
              snd (reported model_name e0 shown) = inl e <->
              match markup_error (error_with_markup model_name e0) with
              | None =>
                  e = e0
                  /\ last (fst (reported model_name e0 shown))
                     = Some (ErrorWith model_name (exc_str e0))
              | Some e' =>
                  e = e'
                  /\ forall m msg,
                       ErrorWith m msg ∉ fst (reported model_name e0 shown)
              end) as Hrep.
  { intros e0 shown Hno e. unfold report.
    destruct (markup_error _) as [e'|]; cbn [fst snd].
    - split; [intros [= <-]; now split | intros [-> _]; reflexivity].
    - split.
      + intros [= <-]. split; [reflexivity | apply last_snoc].
      + intros [-> _]. reflexivity. }
  rewrite single_chat_eq.
  destruct (get_provider model_name) as [e0|provider] eqn:Hp.
  { pose proof (sent_report model_name e0 []) as Hsent.
    destruct (reported model_name e0 []) as [steps result] eqn:Hr.
    pose proof (Hrep e0 [] (fun m msg => not_elem_of_nil _)) as Hrep0.
    rewrite Hr in Hrep0. cbn [fst snd] in Hrep0, Hsent.
    pose proof (report_not_finalized model_name e0 []
                  (not_elem_of_nil _)) as Hnf.
    destruct (report_raises model_name e0 []) as (e' & He' & _).
    rewrite Hr in Hnf, He'. cbn [fst snd] in Hnf, He'. subst result.
    split; [|split; [|split]]; [|now intros | discriminate | auto].
    intros e. rewrite Hrep0. split.
    - intros H. exists e0. split; [now left | exact H].
    - intros (e1 & [[= <-]|(p & [=] & _)] & Hmk). exact Hmk. }
  destruct (models config !! model_name) as [mc|] eqn:Hm.
  2:{ pose proof (sent_report model_name (not_found model_name) [])
        as Hsent.
      destruct (reported model_name (not_found model_name) [])
        as [steps result] eqn:Hr.
      pose proof (Hrep (not_found model_name) []
                    (fun m msg => not_elem_of_nil _)) as Hrep0.
      rewrite Hr in Hrep0. cbn [fst snd] in Hrep0, Hsent.
      pose proof (report_not_finalized model_name (not_found model_name) []
                    (not_elem_of_nil _)) as Hnf.
      destruct (report_raises model_name (not_found model_name) [])
        as (e' & He' & _).
      rewrite Hr in Hnf, He'. cbn [fst snd] in Hnf, He'. subst result.
      split; [|split; [|split]]; [|now intros | discriminate | auto].
      intros e. rewrite Hrep0. split.
      - intros H. exists (not_found model_name). split; [|exact H].
        right. exists provider. split; [reflexivity|]. now left.
      - intros (e1 & [[=]|(p & _ & [[_ ->]|[[? [=]] _]])] & Hmk). exact Hmk. }
  destruct (provider (question prompt)) as [chunks [e0|]] eqn:Hs.
  - pose proof (sent_report model_name e0
                  (streamed model_name mc prompt chunks)) as Hsent.
    rewrite sent_streamed in Hsent.
    destruct (reported model_name e0 (streamed model_name mc prompt chunks))
      as [steps result] eqn:Hr.
    pose proof (Hrep e0 (streamed model_name mc prompt chunks)
                  (streamed_no_error model_name mc prompt chunks)) as Hrep0.
    rewrite Hr in Hrep0. cbn [fst snd] in Hrep0, Hsent.
    pose proof (report_not_finalized model_name e0 _
                  (streamed_not_finalized model_name mc prompt chunks))
      as Hnf.
    destruct (report_raises model_name e0
                (streamed model_name mc prompt chunks)) as (e' & He' & _).
    rewrite Hr in Hnf, He'. cbn [fst snd] in Hnf, He'. subst result.
    split; [|split; [|split]]; [|now intros | discriminate | auto].
    intros e. rewrite Hrep0. split.
    + intros H. exists e0. split; [|exact H].
      right. exists provider. split; [reflexivity|]. right.
      split; [eauto|]. now rewrite Hs.
    + intros (e1 & [[=]|(p & [= <-] & [[[=] _]|[_ Hb]])] & Hmk).
      rewrite Hs in Hb. cbn in Hb. injection Hb as ->. exact Hmk.
  - split; [|split; [|split]].
    + intros e. split; [discriminate|].
      intros (e1 & [[=]|(p & [= <-] & [[[=] _]|[_ Hb]])] & _).
      rewrite Hs in Hb. discriminate.
    + discriminate.
    + intros _. apply last_snoc.
    + right. rewrite sent_app, sent_streamed. reflexivity.
Qed.

End SingleChatFacts.

(** ** The interactive session *)

Section SessionFacts.

Import SingleChat Interactive.

Variable config : AIConfig.
Variable get_provider : provider_factory.
Variable client : provider_client.
Variable markup_error : markup.
Variable lower : str -> str.

Abbreviation configured self :=
  (is_Some (models config !! current_model self)).
Abbreviation handle := (_handle_command config client markup_error lower).
Abbreviation chat := (_handle_chat config get_provider markup_error).
Abbreviation start :=
  (Interactive.run config get_provider client markup_error lower).
Abbreviation keeps := (kept config markup_error).
Abbreviation question prompt := [ChatMessage_init (lit "user") prompt None].

(** *** Words and blanks *)

Lemma split_words_nonempty (s : str) : forall word,
  word <> [] -> split_words word s <> [].
Proof.
  induction s as [|c s IH]; intros word Hw; cbn.
  - now destruct word.
  - destruct (isspace c); [now destruct word|].
    now apply IH.
Qed.

Lemma startswith_slash (s : str) :
  startswith s (lit "/") = true -> exists s', s = 47%N :: s'.
Proof.
  unfold startswith. intros H. apply bool_decide_eq_true in H.
  destruct s as [|c s]; [discriminate|]. cbn in H.
  injection H as ->. eauto.
Qed.

Lemma split_slash (s : str) :
  startswith s (lit "/") = true -> split s <> [].
Proof.
  intros H. apply startswith_slash in H as [s' ->].
  unfold split. cbn. now apply split_words_nonempty.
Qed.

Lemma lstrip_snoc (l : str) c : isspace c = false -> lstrip (l ++ [c]) <> [].
Proof.
  intros Hc. induction l as [|x l IH]; cbn.
  - now rewrite Hc.
  - now destruct (isspace x).
Qed.

Lemma strip_slash (s : str) :
  startswith s (lit "/") = true -> truthy (strip s) = true.
Proof.
  intros H. apply startswith_slash in H as [s' ->].
  unfold strip, rstrip. change (lstrip (47%N :: s')) with (47%N :: s').
  cbn [rev].
  assert (forall l : str, l <> [] -> truthy (rev l) = true) as Hrev.
  { intros [|x l] Hl; [contradiction|]. cbn [rev]. now destruct (rev l). }
  apply Hrev, lstrip_snoc. reflexivity.
Qed.

(** *** What the lines on the console tell *)

Lemma questions_app s1 s2 :
  questions (s1 ++ s2) = questions s1 ++ questions s2.
Proof. unfold questions. apply omap_app. Qed.

Lemma questions_chat (steps : list step) :
  questions (map Chat steps) = sent steps.
Proof.
  induction steps as [|[] steps IH]; cbn; try exact IH; [reflexivity|].
  unfold questions, sent in *. cbn. now f_equal.
Qed.

Lemma questions_aside (shown : list said) :
  Forall aside shown -> questions shown = [].
Proof.
  induction 1 as [|s shown Hs _ IH]; [reflexivity|].
  change (s :: shown) with ([s] ++ shown). rewrite questions_app, IH.
  now destruct s.
Qed.

Lemma record_aside (shown : list said) :
  Forall aside shown ->
  forall st, fold_left record_step shown st = st.
Proof.
  induction 1 as [|s shown Hs _ IH]; intros [h a]; [reflexivity|].
  cbn [fold_left]. rewrite <- (IH (h, a)) at 2. f_equal.
  now destruct s.
Qed.

Lemma sent_cons (s : step) (steps : list step) :
  sent (s :: steps)
  = match s with Sent ms => ms :: sent steps | _ => sent steps end.
Proof. now destruct s. Qed.

Lemma record_unasked (steps : list step) :
  Finalized ∉ steps -> sent steps = [] ->
  forall st, fold_left record_step (map Chat steps) st = st.
Proof.
  induction steps as [|s steps IH]; intros Hnf Hsent [h a]; [reflexivity|].
  apply not_elem_of_cons in Hnf as [Hs Hnf]. rewrite sent_cons in Hsent.
  cbn [map fold_left].
  destruct s; try discriminate; try contradiction;
    exact (IH Hnf Hsent (h, a)).
Qed.

Lemma record_asked (steps : list step) msg :
  Finalized ∉ steps -> sent steps = [[msg]] ->
  forall h a,
    fold_left record_step (map Chat steps) (h, a) = (h, Some (content msg)).
Proof.
  induction steps as [|s steps IH]; intros Hnf Hsent h a; [discriminate|].
  apply not_elem_of_cons in Hnf as [Hs Hnf]. rewrite sent_cons in Hsent.
  cbn [map fold_left].
  destruct s; try contradiction; try exact (IH Hnf Hsent h a).
  injection Hsent as -> Hsent. cbn [record_step].
  apply (record_unasked steps Hnf Hsent).
Qed.

Lemma record_unfinished (steps : list step) :
  Finalized ∉ steps ->
  forall h a, fst (fold_left record_step (map Chat steps) (h, a)) = h.
Proof.
  induction steps as [|s steps IH]; intros Hnf h a; [reflexivity|].
  apply not_elem_of_cons in Hnf as [Hs Hnf]. cbn [map fold_left].
  destruct s; try contradiction; try exact (IH Hnf h a).
  cbn [record_step]. destruct messages as [|m [|]]; apply (IH Hnf).
Qed.

Lemma history_of_app (ps qs : list str) :
  history_of (ps ++ qs) = history_of ps ++ history_of qs.
Proof. unfold history_of. apply flat_map_app. Qed.

(** *** What a stretch of a session keeps *)

Lemma kept_nothing inputs self : keeps inputs self [] None self.
Proof.
  split; [constructor|]. split; [reflexivity|]. split.
  - apply Forall_forall. intros entry Hin. now left.
  - intros Hcfg. split; [exact Hcfg | discriminate].
Qed.

Lemma kept_more inputs inputs' self shown result self' :
  (forall i, i ∈ inputs -> i ∈ inputs') ->
  keeps inputs self shown result self' ->
  keeps inputs' self shown result self'.
Proof.
  intros Hsub (Hq & Hr & He & Hc). split; [|split; [exact Hr|split]].
  - eapply Forall_impl; [exact Hq|].
    intros ms (p & Hin & ->). exists p. auto.
  - eapply Forall_impl; [exact He|].
    intros entry [H|[H|(p & Hin & H)]]; [now left | right; now left|].
    right. right. exists p. auto.
  - intros Hcfg. destruct (Hc Hcfg) as [Hcfg' Hesc].
    split; [exact Hcfg'|]. intros e He'.
    destruct (Hesc e He') as [H|H]; [now left | right; auto].
Qed.

Lemma kept_then inputs self shown1 self1 shown2 result self2 :
  keeps inputs self shown1 None self1 ->
  keeps inputs self1 shown2 result self2 ->
  keeps inputs self (shown1 ++ shown2) result self2.
Proof.
  intros (Hq1 & Hr1 & He1 & Hc1) (Hq2 & Hr2 & He2 & Hc2).
  split; [|split; [|split]].
  - unfold asked_of. rewrite questions_app. now apply Forall_app.
  - intros asked. rewrite fold_left_app.
    specialize (Hr1 asked).
    destruct (fold_left record_step shown1 _) as [h1 a1].
    cbn [fst] in Hr1. subst h1. apply Hr2.
  - apply Forall_forall. intros entry Hin.
    rewrite Forall_forall in He1, He2.
    destruct (He2 entry Hin) as [H|H]; [now apply He1 | now right].
  - intros Hcfg. destruct (Hc1 Hcfg) as [Hcfg1 _]. now apply Hc2.
Qed.

(** The prints that may fail. *)
Lemma console_print_cases text line self :
  (markup_error text = None
   /\ console_print markup_error text line self = ([line], inr tt, self))
  \/ (exists e,
        markup_error text = Some e
        /\ console_print markup_error text line self = ([], inl e, self)).
Proof.
  unfold console_print.
  destruct (markup_error text) as [e|]; [right | left]; eauto.
Qed.

Lemma show_lines_cases (entries : list (str * str)) :
  Forall aside (fst (show_lines markup_error entries))
  /\ forall e,
       snd (show_lines markup_error entries) = Some e ->
       exists text, markup_error text = Some e.
Proof.
  induction entries as [|entry entries [IHa IHe]]; cbn [show_lines].
  - split; [constructor | discriminate].
  - destruct (markup_error (history_markup entry)) as [e0|] eqn:Hm.
    + split; [constructor|]. intros e [= <-]. eauto.
    + destruct (show_lines markup_error entries) as [shown r].
      cbn [fst snd] in *. split; [|exact IHe].
      constructor; [|exact IHa]. now destruct entry.
Qed.

(** A chat never changes the model; it adds its entries to the history
    exactly when it finalises the display; and it raises only the
    exception of the print of its error line. *)
Lemma kept_chat prompt self :
  exists shown result self',
    chat prompt self = (shown, result, self')
    /\ keeps [Line prompt] self shown
         (match result with inl e => Some e | inr _ => None end) self'.
Proof.
  unfold _handle_chat.
  assert (forall steps : list step,
            sent steps = [] \/ sent steps = [question prompt] ->
            asked_of [Line prompt] (map Chat steps)) as Hasked.
  { intros steps Hs. unfold asked_of. rewrite questions_chat.
    destruct Hs as [-> | ->]; [constructor|].
    constructor; [|constructor]. exists prompt.
    split; [left | reflexivity]. }
  pose proof (single_chat_sent config get_provider markup_error prompt
                (current_model self)) as Hsent.
  destruct (single_chat_cases config get_provider markup_error prompt
              (current_model self))
    as [(before & Heq & Hb & Hnf)|(steps & e & Heq & Hnf)];
    rewrite Heq in *; cbn [fst] in Hsent.
  - do 3 eexists. split; [reflexivity|]. cbn [conversation_history].
    split; [now apply Hasked|]. split; [|split].
    + intros asked. rewrite map_app, fold_left_app.
      rewrite (record_asked before _ Hnf Hb). reflexivity.
    + apply Forall_app. split.
      * apply Forall_forall. intros entry Hin. now left.
      * constructor; [|constructor; [|constructor]].
        -- right. right. exists prompt. split; [left | reflexivity].
        -- right. now left.
    + intros Hcfg. split; [exact Hcfg | discriminate].
  - destruct (console_print_cases (error_markup (exc_str e))
                (ErrorLine (exc_str e)) self)
      as [[_ ->]|(e' & He' & ->)].
    + do 3 eexists. split; [reflexivity|]. split; [|split; [|split]].
      * unfold asked_of. rewrite questions_app.
        apply Forall_app. split; [now apply Hasked | constructor].
      * intros asked. rewrite fold_left_app.
        rewrite record_aside by (repeat constructor).
        now apply record_unfinished.
      * apply Forall_forall. intros entry Hin. now left.
      * intros Hcfg. split; [exact Hcfg | discriminate].
    + do 3 eexists. split; [reflexivity|]. split; [|split; [|split]].
      * rewrite app_nil_r. now apply Hasked.
      * intros asked. rewrite app_nil_r. now apply record_unfinished.
      * apply Forall_forall. intros entry Hin. now left.
      * intros Hcfg. split; [exact Hcfg|]. intros e0 [= <-]. left. eauto.
Qed.

(** What keeps a stretch that shows only lines aside and leaves the
    session as it is. *)
Lemma kept_aside inputs self shown (result : option exc) :
  Forall aside shown ->
  (configured self ->
   forall e, result = Some e -> exists text, markup_error text = Some e) ->
  keeps inputs self shown result self.
Proof.
  intros Ha Hr. split; [|split; [|split]].
  - unfold asked_of. rewrite (questions_aside shown Ha). constructor.
  - intros asked. now rewrite (record_aside shown Ha).
  - apply Forall_forall. intros entry Hin. now left.
  - intros Hcfg. split; [exact Hcfg|]. intros e He. left. now apply Hr.
Qed.

(** A command asks no provider, keeps or empties the history, and on a
    session whose model is configured it leaves a session whose model is
    configured and raises only the exception of a print. *)
Lemma kept_command command self :
  startswith command (lit "/") = true ->
  exists shown result self',
    handle command self = (shown, result, self')
    /\ keeps [Line command] self shown
         (match result with inl e => Some e | inr _ => None end) self'.
Proof.
  intros Hslash. unfold _handle_command.
  destruct (split command) as [|part0 args] eqn:Hsplit.
  { now apply split_slash in Hslash. }
  assert (forall shown (result : exc + bool),
            Forall aside shown ->
            (configured self -> forall e, result = inl e ->
               exists text, markup_error text = Some e) ->
            exists shown0 result0 self',
              (shown, result, self) = (shown0, result0, self')
              /\ keeps [Line command] self shown0
                   (match result0 with inl e => Some e | inr _ => None end)
                   self') as Hsame.
  { intros shown result Ha Hr. do 3 eexists. split; [reflexivity|].
    apply kept_aside; [exact Ha|].
    intros Hcfg e He. destruct result as [e0|]; [|discriminate].
    injection He as ->. now apply Hr. }
  cbv zeta.
  case_bool_decide; [apply Hsame; [constructor | discriminate]|].
  case_bool_decide;
    [apply Hsame; [repeat constructor | discriminate]|].
  case_bool_decide.
  { do 3 eexists. split; [reflexivity|]. split; [constructor|].
    split; [reflexivity|]. split; [constructor|].
    intros Hcfg. split; [exact Hcfg | discriminate]. }
  case_bool_decide.
  { unfold _show_history.
    destruct (conversation_history self) eqn:Hhist;
      [apply Hsame; [repeat constructor | discriminate]|].
    destruct (show_lines_cases (last_ten (p :: l))) as [Ha He].
    destruct (show_lines markup_error (last_ten (p :: l))) as [shown r].
    cbn [fst snd] in Ha, He. apply Hsame; [now constructor|].
    intros _ e Hr. destruct r as [e0|]; [|discriminate].
    injection Hr as ->. now apply He. }
  case_bool_decide.
  { destruct args as [|model_name args].
    - unfold _show_current_model, get_model_config.
      destruct (models config !! current_model self) as [mc|] eqn:Hmc;
        cbn [fst].
      + apply Hsame; [repeat constructor | discriminate].
      + apply Hsame; [constructor|]. intros [? [=]].
    - unfold _change_model. case_bool_decide as Hin.
      + do 3 eexists. split; [reflexivity|]. split; [constructor|].
        split; [reflexivity|]. split.
        * apply Forall_forall. intros entry Hentry. now left.
        * intros _. split; [now apply elem_of_dom | discriminate].
      + destruct (console_print_cases (model_not_found_markup model_name)
                    (ModelNotFound model_name) self)
          as [[_ ->]|(e' & He' & ->)].
        * apply Hsame; [repeat constructor | discriminate].
        * apply Hsame; [constructor|]. intros _ e [= <-]. eauto. }
  case_bool_decide;
    [apply Hsame; [repeat constructor | discriminate]|].
  case_bool_decide.
  { destruct args as [|a args];
      [apply Hsame; [repeat constructor | discriminate]|].
    unfold _handle_roundtable.
    assert (forall t : list event, Forall aside (map Table t)) as Ht.
    { intros t. apply Forall_fmap, Forall_forall. now intros. }
    destruct (roundtable_chat _ _ _ _) as [t [e|r]].
    - destruct (console_print_cases (error_markup (exc_str e))
                  (ErrorLine (exc_str e)) self)
        as [[_ ->]|(e' & He' & ->)].
      + apply Hsame; [|discriminate].
        apply Forall_app. split; [apply Ht | repeat constructor].
      + apply Hsame; [rewrite app_nil_r; apply Ht|].
        intros _ e0 [= <-]. eauto.
    - apply Hsame; [apply Ht | discriminate]. }
  case_bool_decide;
    [apply Hsame; [repeat constructor | discriminate]|].
  destruct (console_print_cases (unknown_command_markup (lower part0))
              (UnknownCommand (lower part0)) self)
    as [[_ ->]|(e' & He' & ->)].
  - apply Hsame; [repeat constructor | discriminate].
  - apply Hsame; [constructor|]. intros _ e [= <-]. eauto.
Qed.

(** What holds of the loop whatever comes in. *)
Lemma kept_loop (inputs : list input) : forall self,
  exists shown result self',
    loop config get_provider client markup_error lower inputs self
    = (shown, result, self')
    /\ keeps inputs self shown result self'.
Proof.
  induction inputs as [|i inputs IH]; intros self.
  { do 3 eexists. split; [reflexivity | apply kept_nothing]. }
  assert (forall self1 shown1,
            keeps (i :: inputs) self shown1 None self1 ->
            exists shown result self',
              (let '(shown', r, self'') :=
                 loop config get_provider client markup_error lower inputs
                   self1 in
               (shown1 ++ shown', r, self''))
              = (shown, result, self')
              /\ keeps (i :: inputs) self shown result self') as Hnext.
  { intros self1 shown1 H1.
    destruct (IH self1) as (shown' & r & self'' & -> & H2).
    do 3 eexists. split; [reflexivity|].
    apply (kept_then _ _ _ self1); [exact H1|].
    apply (kept_more inputs); [|exact H2]. intros x Hx. now right. }
  assert (exists shown result self',
            loop config get_provider client markup_error lower inputs self
            = (shown, result, self')
            /\ keeps (i :: inputs) self shown result self') as Hskip.
  { destruct (Hnext self [] (kept_nothing _ _)) as (s & r & s' & E & H).
    cbn [app] in E.
    destruct (loop _ _ _ _ _ inputs self) as [[? ?] ?].
    injection E as <- <- <-. eauto. }
  assert (forall x, x ∈ [i] -> x ∈ i :: inputs) as Hone.
  { intros x Hx. apply list_elem_of_singleton in Hx as ->. left. }
  destruct i as [user_input|[e|[|]]|]; cbn [loop].
  - destruct (negb (truthy (strip user_input))); [exact Hskip|].
    destruct (startswith user_input (lit "/")) eqn:Hslash.
    + destruct (kept_command user_input self Hslash)
        as (shown & result & self1 & -> & Hk).
      apply (kept_more _ (Line user_input :: inputs)) in Hk; [|exact Hone].
      destruct result as [e|[|]].
      * do 3 eexists. split; [reflexivity | exact Hk].
      * do 3 eexists. split; [reflexivity | exact Hk].
      * now apply Hnext.
    + destruct (kept_chat user_input self)
        as (shown & result & self1 & -> & Hk).
      apply (kept_more _ (Line user_input :: inputs)) in Hk; [|exact Hone].
      destruct result as [e|[]].
      * do 3 eexists. split; [reflexivity | exact Hk].
      * now apply Hnext.
  - do 3 eexists. split; [reflexivity|].
    destruct (kept_nothing (Interrupt (inl e) :: inputs) self)
      as (Hq & Hr & He & Hc).
    split; [exact Hq|]. split; [exact Hr|]. split; [exact He|].
    intros Hcfg. split; [exact Hcfg|]. intros e0 [= <-]. right. left.
  - do 3 eexists. split; [reflexivity | apply kept_nothing].
  - exact Hskip.
  - do 3 eexists. split; [reflexivity | apply kept_nothing].
Qed.

Lemma record_run (shown : list said) name st :
  fold_left record_step (Welcome name :: shown ++ [Goodbye]) st
  = fold_left record_step shown st.
Proof.
  cbn [fold_left]. rewrite fold_left_app.
  assert (record_step st (Welcome name) = st) as -> by now destruct st.
  now destruct (fold_left record_step shown st).
Qed.

Lemma questions_run (shown : list said) name :
  questions (Welcome name :: shown ++ [Goodbye]) = questions shown.
Proof.
  change (Welcome name :: shown ++ [Goodbye])
    with ([Welcome name] ++ shown ++ [Goodbye]).
  rewrite !questions_app. cbn. apply app_nil_r.
Qed.

(** X15. A session whose current model is configured, as it is at the
    start when the default model is, keeps a configured current model, and
    the only exceptions that leave [run] are those of a print that holds
    typed input, history or an exception's message, and those of
    [confirm]: whatever comes in, [run] returns after its goodbye or
    raises such an exception.  So it returns when every text prints and
    every [confirm] answers. *)
Theorem run_returns (inputs : list input) self :
  is_Some (models config !! current_model self) ->
  exists shown result self',
    start inputs self = (shown, result, self')
    /\ is_Some (models config !! current_model self')
    /\ match result with
       | inr _ => last shown = Some Goodbye
       | inl e =>
           (exists text, markup_error text = Some e)
           \/ Interrupt (inl e) ∈ inputs
       end
    /\ ((forall text, markup_error text = None) ->
        (forall e, Interrupt (inl e) ∉ inputs) ->
        result = inr tt).
Proof.
  intros Hcfg. unfold Interactive.run.
  destruct (kept_loop inputs self)
    as (shown & result & self' & -> & _ & _ & _ & Hc).
  destruct (Hc Hcfg) as [Hcfg' Hesc].
  destruct result as [e|].
  - do 3 eexists. split; [reflexivity|]. split; [exact Hcfg'|].
    split; [exact (Hesc e eq_refl)|].
    intros Hprint Hconfirm. exfalso.
    destruct (Hesc e eq_refl) as [[text Ht]|Hin].
    + rewrite Hprint in Ht. discriminate.
    + exact (Hconfirm e Hin).
  - do 3 eexists. split; [reflexivity|]. split; [exact Hcfg'|].
    split; [|reflexivity].
    apply (last_snoc Goodbye (Welcome (current_model self) :: shown)).
Qed.

(** X16. The history of a session is what its console tells, and holds
    no response of a model.  Whatever comes in and however [run] ends, the
    history it leaves is the one it began with, emptied at every line of
    [/clear] and extended, at every finalisation of the display, which
    ends exactly the chats that return, by the question of that chat as a
    user entry and the fixed assistant entry ["Response received"]; so
    every entry is one it began with, an input line as a user entry, or
    that fixed entry. *)
Theorem run_history (inputs : list input) self :
  let '(shown, _, self') := start inputs self in
  conversation_history self'
  = recorded (conversation_history self) shown
  /\ Forall (fun entry =>
               entry ∈ conversation_history self
               \/ entry = (lit "assistant", lit "Response received")
               \/ exists p, Line p ∈ inputs /\ entry = (lit "user", p))
       (conversation_history self').
Proof.
  unfold Interactive.run, recorded.
  destruct (kept_loop inputs self)
    as (shown & result & self' & -> & _ & Hr & He & _).
  destruct result as [e|].
  - split; [|exact He]. cbn [fold_left]. symmetry. apply Hr.
  - split; [|exact He]. rewrite record_run. symmetry. apply Hr.
Qed.

(** X17. The chats of a session have no memory.  Whatever comes in, every
    message list a provider is given by [single_chat] holds one message,
    the line just typed as a user message, whatever was said before. *)
Theorem run_questions (inputs : list input) self :
  Forall (fun ms => exists p,
            Line p ∈ inputs /\ ms = [ChatMessage_init (lit "user") p None])
    (questions (fst (fst (start inputs self)))).
Proof.
  unfold Interactive.run.
  destruct (kept_loop inputs self)
    as (shown & result & self' & -> & Hq & _).
  destruct result; cbn [fst].
  - exact Hq.
  - rewrite questions_run. exact Hq.
Qed.

(** X18. Nothing keeps the current model configured at the start, and the loop
    of [run] catches [KeyboardInterrupt] and [EOFError] only: with a
    current model that has no configuration, the command [/model] without
    an argument raises the [ValueError] of [get_model_config] out of
    [run], before anything but the welcome is shown and without the
    goodbye. *)
Theorem run_raises_without_current_model line cmd rest self :
  models config !! current_model self = None ->
  startswith line (lit "/") = true ->
  split line = [cmd] ->
  lower cmd = lit "/model" ->
  start (Line line :: rest) self
  = ([Welcome (current_model self)],
     inl (not_found (current_model self)), self).
Proof.
  intros Hnone Hslash Hsplit Hcmd. unfold Interactive.run. cbn [loop].
  rewrite (strip_slash line Hslash), Hslash. cbn [negb].
  unfold _handle_command. rewrite Hsplit. cbv zeta. rewrite Hcmd.
  unfold _show_current_model, get_model_config. rewrite Hnone.
  reflexivity.
Qed.

Lemma shortened_length (content : str) :
  (length (shortened content) <= 103)%nat.
Proof.
  unfold shortened. rewrite length_app, length_take.
  destruct (100 <? length content)%nat;
    [change (length (lit "...")) with 3%nat | cbn [length]]; lia.
Qed.

Lemma shortened_short (content : str) :
  (length content <= 100)%nat -> shortened content = content.
Proof.
  intros Hlen. unfold shortened.
  destruct (Nat.ltb_spec 100 (length content)); [lia|].
  now rewrite take_ge, app_nil_r by exact Hlen.
Qed.

(** The lines of the history are shown up to the first that does not
    print. *)
Lemma show_lines_eq (entries : list (str * str)) :
  (Forall (fun entry => markup_error (history_markup entry) = None) entries
   /\ show_lines markup_error entries = (map history_line entries, None))
  \/ (exists before entry after e,
        entries = before ++ entry :: after
        /\ Forall (fun entry => markup_error (history_markup entry) = None)
             before
        /\ markup_error (history_markup entry) = Some e
        /\ show_lines markup_error entries
           = (map history_line before, Some e)).
Proof.
  induction entries as [|entry entries IH]; [left; now split|].
  cbn [show_lines].
  destruct (markup_error (history_markup entry)) as [e|] eqn:Hm.
  { right. exists [], entry, entries, e. now repeat split. }
  destruct IH as [[Hall ->]|(before & bad & after & e & -> & Hall & Hbad & ->)].
  - left. split; [now constructor | reflexivity].
  - right. exists (entry :: before), bad, after, e.
    split; [reflexivity|]. split; [now constructor|]. now split.
Qed.

(** X19. [/history] changes nothing.  It shows the title and the lines of
    the last ten entries at most, in order, up to the first line whose
    print raises, with whose exception it then ends; so it returns exactly
    when the lines of the last ten entries all print, having shown them
    all.  No line shows more than 103 characters of an entry, and an entry
    of up to 100 characters is shown as it is. *)
Theorem show_history_bounded self :
  let '(shown, result, self') := _show_history markup_error self in
  let entries := last_ten (conversation_history self) in
  self' = self
  /\ (length shown <= 11)%nat
  /\ (conversation_history self = [] ->
      shown = [NoHistory] /\ result = inr tt)
  /\ (conversation_history self <> [] ->
      (result = inr tt
       <-> Forall (fun entry => markup_error (history_markup entry) = None)
             entries)
      /\ (result = inr tt ->
          shown = HistoryTitle :: map history_line entries
          /\ length shown
             = (1 + min 10 (length (conversation_history self)))%nat
          /\ forall role content,
               (length content <= 100)%nat ->
               (role, content) ∈ entries ->
               HistoryLine (bool_decide (role = lit "user")) role content
                 ∈ shown)
      /\ (forall e,
            result = inl e ->
            exists before entry after,
              entries = before ++ entry :: after
              /\ Forall (fun entry =>
                           markup_error (history_markup entry) = None)
                   before
              /\ markup_error (history_markup entry) = Some e
              /\ shown = HistoryTitle :: map history_line before))
  /\ Forall (fun s => match s with
                      | HistoryLine _ _ text => (length text <= 103)%nat
                      | _ => True
                      end) shown.
Proof.
  unfold _show_history.
  assert (forall l : list (str * str),
            Forall (fun s => match s with
                             | HistoryLine _ _ text =>
                                 (length text <= 103)%nat
                             | _ => True
                             end) (map history_line l)) as Hlines.
  { intros l. apply Forall_fmap, Forall_forall. intros [role content] _.
    unfold compose, history_line. cbv beta iota. apply shortened_length. }
  destruct (conversation_history self) as [|entry history] eqn:Hh.
  { cbv zeta. split; [reflexivity|]. split; [cbn; lia|].
    split; [now split|]. split; [now intros|]. repeat constructor. }
  cbv zeta.
  assert (length (last_ten (entry :: history))
          = min 10 (length (entry :: history))) as Hten.
  { unfold last_ten. rewrite length_drop. lia. }
  destruct (show_lines_eq (last_ten (entry :: history)))
    as [[Hall ->]|(before & bad & after & e & Hsplit & Hall & Hbad & ->)].
  - split; [reflexivity|]. split; [cbn [length]; rewrite length_map; lia|].
    split; [discriminate|]. split.
    + intros _. split; [now split|]. split; [|discriminate].
      intros _. split; [reflexivity|]. split.
      * cbn [length] in *. rewrite length_map. lia.
      * intros role content Hlen Hin. right.
        apply list_elem_of_fmap. exists (role, content).
        split; [|exact Hin]. unfold history_line.
        now rewrite (shortened_short content Hlen).
    + constructor; [exact I | apply Hlines].
  - assert (length before <= 10)%nat as Hb.
    { rewrite Hsplit, length_app in Hten. cbn [length] in Hten. lia. }
    split; [reflexivity|]. split; [cbn [length]; rewrite length_map; lia|].
    split; [discriminate|]. split.
    + intros _. split; [|split; [discriminate|]].
      * split; [discriminate|]. intros Hprint. exfalso.
        rewrite Hsplit in Hprint. apply Forall_app in Hprint as [_ Hprint].
        apply Forall_cons in Hprint as [Hprint _].
        rewrite Hbad in Hprint. discriminate.
      * intros e0 [= <-]. exists before, bad, after. now repeat split.
    + constructor; [exact I | apply Hlines].
Qed.

End SessionFacts.

(** ** The [config set] command *)

Section ConfigSetFacts.

Import Cli.

Variable to_float : str -> exc + spec_float.
Variable to_int : str -> exc + Z.
Variable lower : str -> str.
Variable manager : manager_call -> exc + unit.

Lemma cut_Some sep s before after :
  cut sep s = Some (before, after)
  <-> s = before ++ sep :: after /\ (sep ∉ before).
Proof.
  revert before. induction s as [|c s IH]; intros before; cbn.
  - split; [discriminate|]. intros [H _]. now destruct before.
  - destruct (decide (c = sep)) as [->|Hne].
    + split.
      * intros [= <- <-]. split; [reflexivity | apply not_elem_of_nil].
      * intros [H Hout]. destruct before as [|b before].
        -- now injection H as ->.
        -- injection H as <- _. exfalso. apply Hout. left.
    + destruct (cut sep s) as [[b a]|] eqn:Hcut.
      * split.
        -- intros [= <- <-]. destruct (proj1 (IH b) eq_refl) as [-> Hout].
           split; [reflexivity|]. rewrite not_elem_of_cons. now split.
        -- intros [H Hout]. destruct before as [|b' before].
           ++ injection H as -> _. contradiction.
           ++ injection H as <- H. apply not_elem_of_cons in Hout as [_ Hout].
              now injection (proj2 (IH before) (conj H Hout)) as -> ->.
      * split; [discriminate|]. intros [H Hout].
        destruct before as [|b' before].
        -- injection H as -> _. contradiction.
        -- injection H as <- H. apply not_elem_of_cons in Hout as [_ Hout].
           discriminate (proj2 (IH before) (conj H Hout)).
Qed.

Lemma cut_app sep before after :
  sep ∉ before -> cut sep (before ++ sep :: after) = Some (before, after).
Proof. intros Hout. now apply cut_Some. Qed.

Lemma split_model_key rest :
  split_sep dot 2 (lit "model." ++ rest)
  = match cut dot rest with
    | Some (model_name, setting) => [lit "model"; model_name; setting]
    | None => [lit "model"; rest]
    end.
Proof.
  change (lit "model." ++ rest) with (lit "model" ++ dot :: rest).
  cbn [split_sep]. rewrite cut_app.
  - now destruct (cut dot rest) as [[? ?]|].
  - vm_compute. intros H. repeat (apply elem_of_cons in H as [H|H];
      [discriminate|]). inversion H.
Qed.

Lemma startswith_eq s prefix :
  startswith s prefix = true -> s = prefix ++ drop (length prefix) s.
Proof.
  unfold startswith. intros H. apply bool_decide_eq_true in H.
  rewrite <- H at 1. symmetry. apply take_drop.
Qed.

Abbreviation calls key value :=
  (fst (fst (config_set to_float to_int lower manager key value))).

(** X20. [config set] updates a model only for a key [model.<name>.<setting>]
    whose name has no full stop: the name passed to [update_model] is the
    text between the first two full stops of the key, so a model whose
    name holds a full stop cannot be reached.  For such a key whose value
    converts, the call is made, and no command makes more than one
    call. *)
Theorem config_set_update_model key value model_name setting v :
  (UpdateModel model_name setting v ∈ calls key value
   <-> key = lit "model." ++ model_name ++ lit "." ++ setting
       /\ (dot ∉ model_name)
       /\ convert to_float to_int lower setting value = inr v)
  /\ (length (calls key value) <= 1)%nat.
Proof.
  unfold config_set, config_set_body.
  case_bool_decide as Hkey.
  { subst key. split.
    - split.
      + destruct (manager _); cbn; intros H;
          apply list_elem_of_singleton in H; discriminate.
      + intros [H _]. discriminate.
    - destruct (manager _); cbn; lia. }
  destruct (startswith key (lit "model.")) eqn:Hstart.
  2:{ split; [|cbn; lia]. split.
      - cbn. intros H. inversion H.
      - intros [-> _]. exfalso. revert Hstart.
        change (lit "model." ++ model_name ++ lit "." ++ setting)
          with (lit "model." ++ (model_name ++ lit "." ++ setting)).
        now rewrite startswith_app. }
  apply startswith_eq in Hstart. remember (drop _ key) as rest eqn:Hrest.
  clear Hrest. subst key. rewrite split_model_key.
  destruct (cut dot rest) as [[n s]|] eqn:Hcut.
  2:{ split; [|cbn; lia]. split.
      - cbn. intros H. inversion H.
      - intros (H & Hout & _). apply app_inv_head in H. subst rest.
        change (model_name ++ lit "." ++ setting)
          with (model_name ++ dot :: setting) in Hcut.
        now rewrite cut_app in Hcut. }
  apply cut_Some in Hcut as [-> Hn].
  destruct (convert to_float to_int lower s value) as [e|v0] eqn:Hconv.
  - split; [|cbn; lia]. split.
    + cbn. intros H. inversion H.
    + intros (H & Hout & Hv). apply app_inv_head in H.
      change (model_name ++ lit "." ++ setting)
        with (model_name ++ dot :: setting) in H.
      assert (cut dot (n ++ dot :: s) = Some (model_name, setting)) as Hc.
      { rewrite H. now apply cut_app. }
      rewrite cut_app in Hc by exact Hn. injection Hc as <- <-.
      congruence.
  - assert (calls (lit "model." ++ n ++ dot :: s) value
            = [UpdateModel n s v0]) as Hc0.
    { unfold config_set, config_set_body.
      rewrite bool_decide_eq_false_2 by exact Hkey.
      rewrite startswith_app, split_model_key, cut_app by exact Hn.
      rewrite Hconv. now destruct (manager _). }
    unfold config_set, config_set_body in Hc0.
    rewrite bool_decide_eq_false_2 in Hc0 by exact Hkey.
    rewrite startswith_app, split_model_key, cut_app in Hc0 by exact Hn.
    rewrite Hconv in Hc0. rewrite Hc0. split; [|cbn; lia]. split.
    + intros H. apply list_elem_of_singleton in H. injection H as -> -> ->.
      now repeat split.
    + intros (H & Hout & Hv). apply app_inv_head in H.
      change (model_name ++ lit "." ++ setting)
        with (model_name ++ dot :: setting) in H.
      assert (cut dot (n ++ dot :: s) = Some (model_name, setting)) as Hc.
      { rewrite H. now apply cut_app. }
      rewrite cut_app in Hc by exact Hn. injection Hc as <- <-.
      assert (v = v0) as -> by congruence. left.
Qed.

End ConfigSetFacts.

(** ** The further properties at concrete configurations *)

Section ScenarioFacts.

Import Manager LiteLLM SingleChat Interactive Scenarios.

Lemma written_api_key_not_resolved_witness :
  looks_resolved (lit "env:OPENAI_API_KEY") = false
  /\ (lit "env:OPENAI_API_KEY"
        ∈ [lit "env:OPENAI_API_KEY"; lit "env:ANTHROPIC_API_KEY";
           lit "env:GOOGLE_API_KEY"]
      \/ exists mc,
           models keyed !! model_a = Some mc
           /\ api_key mc = Some (lit "env:OPENAI_API_KEY")).
Proof.
  apply (written_api_key_not_resolved keyed model_a
           (model_to_dict model_a keyed_model) (lit "env:OPENAI_API_KEY"));
    vm_compute; reflexivity.
Defined.

Lemma resolved_api_key_dropped_witness :
  api_key_entry (lit "local/llama3") local_model = None.
Proof.
  apply (resolved_api_key_dropped (lit "local/llama3") local_model secret);
    [reflexivity | vm_compute; reflexivity|].
  split; [reflexivity|]. split; vm_compute; discriminate.
Defined.

Lemma add_then_remove_witness :
  exists written1 written2 self,
    add_roundtable_model Absent (table true) model_c
      {| _config := Some pair |}
    = ([written1], inr tt, self)
    /\ remove_roundtable_model Absent (table true) model_c self
       = ([written2], inr tt, {| _config := Some pair |}).
Proof.
  apply (add_then_remove Absent (table true) pair model_c).
  - eexists. vm_compute. reflexivity.
  - apply (bool_decide_unpack _). vm_compute. exact I.
Defined.

Lemma run_command_consistent_witness :
  exists config',
    snd (run_command Absent (table true) (RemoveRoundtable model_b)
           {| _config := Some (table true) |})
    = {| _config := Some config' |}
    /\ consistent config'
    /\ models config' = models (table true)
    /\ forall client prompt parallel,
         exists t r,
           roundtable_chat config' client prompt parallel = (t, inr r).
Proof.
  apply (run_command_consistent Absent (table true)
           (RemoveRoundtable model_b) (table true)).
  split.
  - apply (bool_decide_unpack _). vm_compute. exact I.
  - repeat constructor; eexists; vm_compute; reflexivity.
Defined.

Lemma litellm_failure_is_text_witness :
  outcome (_get_model_response (litellm_client breaking keyed_model)
             model_a question)
  = inr (lit "Hello Error: connection reset").
Proof.
  destruct (litellm_failure_is_text breaking keyed_model
              (litellm_client breaking keyed_model) model_a question
              eq_refl eq_refl) as (_ & Hout & _).
  rewrite Hout. vm_compute. reflexivity.
Defined.

Lemma single_chat_updates_witness :
  updates (fst (single_chat (table true) echo_factory plain hello model_a))
  = [lit "Hel"; lit "Hello"].
Proof.
  rewrite (single_chat_updates (table true) echo_factory plain hello model_a
             two_chunks (default_model_config openai "gpt-4")
             [lit "Hel"; lit "lo"] None);
    vm_compute; reflexivity.
Defined.

Lemma run_returns_witness :
  exists shown self',
    Interactive.run (table true) echo_factory padded plain (fun s => s)
      script (new_session (table true))
    = (shown, inr tt, self')
    /\ last shown = Some Goodbye
    /\ is_Some (models (table true) !! current_model self').
Proof.
  destruct (run_returns (table true) echo_factory padded plain (fun s => s)
              script (new_session (table true)))
    as (shown & result & self' & Hrun & Hcfg & Hres & Hret).
  - eexists. vm_compute. reflexivity.
  - assert (result = inr tt) as ->.
    { apply Hret; [reflexivity|]. intros e Hin.
      vm_compute in Hin. repeat (apply elem_of_cons in Hin as [Hin|Hin];
        [discriminate|]). inversion Hin. }
    exists shown, self'. now repeat split.
Defined.

Lemma run_raises_without_current_model_witness :
  Interactive.run orphan echo_factory padded plain (fun s => s)
    (Line (lit "/model") :: script) (new_session orphan)
  = ([Welcome (lit "gpt-5")], inl (not_found (lit "gpt-5")),
     new_session orphan).
Proof.
  apply (run_raises_without_current_model orphan echo_factory padded plain
           (fun s => s) (lit "/model") (lit "/model") script
           (new_session orphan));
    vm_compute; reflexivity.
Defined.

End ScenarioFacts.
